(** * ivy JAX backend, [general.py]: scatter/gather and in-place emulation

    A shallow embedding of [ivy/functional/backends/jax/general.py].

    - An engine array is a shape together with its row-major data (what
      [jnp.reshape(x, (-1,))] exposes).
    - Index arithmetic is done in [Z]; the explicit [astype(jnp.int32)] of
      [gather_nd] is written out as a 32-bit wrap-around.
    - Raising code returns a [result]; the framework wrappers ([ivy.Array])
      live in a store of data slots, so that rebinding a slot is visible to
      every holder of the wrapper. *)

From Stdlib Require Import ZArith List Lia Bool String Ascii Floats.
From stdpp Require Import base gmap.
Import ListNotations.

Local Open Scope Z_scope.

(** ** Exceptions and results *)

(** What a failed engine primitive complains about.  The module never
    catches or translates these. *)
Inductive engine_error :=
| TupleIndexOutOfRange      (* [shape[-1]] of a rank-0 array *)
| CannotReshape             (* sizes differ, or an ambiguous [-1] *)
| IncompatibleShapes        (* operands / target shape do not broadcast *)
| TooManyIndices            (* more index vectors than axes *)
| MissingAttribute          (* [.shape], [.at], [.data] of an object without it *)
| NoneNotSubscriptable      (* [shape[k:]] with [shape] absent *)
| InvalidShape              (* [jnp.zeros([None])] *)
| UnsupportedOperand        (* arithmetic on something that is no array *)
| IterationOverRankZero.    (* [Ellipsis in indices] on an array of rank 0 *)

(** Arguments which [ivy.assertions.check_equal] prints in its message. *)
Inductive operand :=
| OInt (n : Z)
| OShape (s : list nat).

Inductive message :=
| Text (s : string)
| MustBeEqual (x1 x2 : operand).

Inductive exn :=
| IvyException (m : message)
| EngineError (e : engine_error).

Inductive result (A : Type) :=
| Ok (a : A)
| Raise (e : exn).
Arguments Ok {A} a.
Arguments Raise {A} e.

Definition bind {A B} (r : result A) (k : A -> result B) : result B :=
  match r with
  | Ok a => k a
  | Raise e => Raise e
  end.

Notation "'let*' x ':=' r 'in' k" := (bind r (fun x => k))
  (at level 10, x name, r at level 100, k at level 200).
Notation "'let*' ' p ':=' r 'in' k" := (bind r (fun p => k))
  (at level 10, p strict pattern, r at level 100, k at level 200).

(** ** Engine arrays *)

Record ndarray (T : Type) := mk_ndarray {
  shape : list nat;
  data : list T
}.
Arguments mk_ndarray {T} shape data.
Arguments shape {T} n.
Arguments data {T} n.

(** [reduce(mul, xs, 1)] *)
Definition reduce_mul (xs : list nat) : nat := fold_left Nat.mul xs 1%nat.

(** [sum(xs)] of a shape tuple. *)
Definition sum_shape (xs : list nat) : nat := fold_left Nat.add xs 0%nat.

(** Number of elements of an array of shape [s]. *)
Definition size_of (s : list nat) : nat := fold_right Nat.mul 1%nat s.

(** An array holds exactly as many elements as its shape says. *)
Definition well_formed {T} (a : ndarray T) : Prop :=
  length (data a) = size_of (shape a).

(** [s[-1]] on a tuple. *)
Definition last_dim (s : list nat) : result nat :=
  match s with
  | [] => Raise (EngineError TupleIndexOutOfRange)
  | _ => Ok (List.last s 0%nat)
  end.

(** The device helper is an opaque "place on the configured device"
    service; it does not change the value. *)
Definition _to_device {A} (x : A) : A := x.

(** [jnp.reshape(x, new_shape)] for a [new_shape] without [-1]. *)
Definition reshape {T} (flat : list T) (new_shape : list nat) : result (ndarray T) :=
  if Nat.eqb (length flat) (size_of new_shape)
  then Ok (mk_ndarray new_shape flat)
  else Raise (EngineError CannotReshape).

(** [x.astype(jnp.int32)]: keep the low 32 bits, read as signed. *)
Definition astype_int32 (z : Z) : Z := (z + 2 ^ 31) mod 2 ^ 32 - 2 ^ 31.

(** [a[i]] for a static integer [i] on a non-empty engine vector: a
    negative index counts from the end, an index past either end is
    clamped. *)
Definition getitem_clamped (a : list nat) (i : Z) : nat :=
  let n := Z.of_nat (length a) in
  let j := if i <? 0 then i + n else i in
  nth (Z.to_nat (Z.max 0 (Z.min j (n - 1)))) a 0%nat.

Section Gather.

Context {T : Type}.
(** What [jnp.take] delivers for a position outside the array (its
    default mode fills). *)
Variable fill : T.

(** [jnp.take(flat, i, 0)] at one position: negative positions count
    from the end, positions outside the array give the fill value. *)
Definition take1 (flat : list T) (i : Z) : T :=
  let n := Z.of_nat (length flat) in
  let j := if i <? 0 then i + n else i in
  if (0 <=? j) && (j <? n) then nth (Z.to_nat j) flat fill else fill.

Definition take (flat : list T) (idx : list Z) : list T :=
  map (take1 flat) idx.

(** [[reduce(mul, params_shape[i + 1:], 1) for i in range(len(params_shape) - 1)] + [1]] *)
Definition res_dim_sizes_list (params_shape : list nat) : list nat :=
  map (fun i => reduce_mul (skipn (i + 1) params_shape))
      (seq 0 (length params_shape - 1))
  ++ [1%nat].

(** The [k]-tuples along the last axis of [indices], in row-major
    order: the rows of [indices.reshape(-1, k)]. *)
Definition index_tuples (indices : ndarray Z) (k : nat) : list (list Z) :=
  map (fun j => firstn k (skipn (j * k) (data indices)))
      (seq 0 (size_of (removelast (shape indices)))).

(** [jnp.sum(row * scales, -1)] for one row. *)
Definition dot (row : list Z) (scales : list nat) : Z :=
  fold_left Z.add (map (fun p => fst p * Z.of_nat (snd p)) (combine row scales)) 0.

(** [jnp.arange(n)] *)
Definition arange (n : nat) : list Z := map Z.of_nat (seq 0 n).

(** [jnp.tile(col, (1, n))] of an (N, 1) column: every row repeats its
    entry [n] times. *)
Definition tile_columns (col : list Z) (n : nat) : list (list Z) :=
  map (fun x => repeat x n) col.

(** [jnp.tile(jnp.expand_dims(row, 0), (n, 1))] *)
Definition tile_rows (row : list Z) (n : nat) : list (list Z) :=
  repeat row n.

(** Elementwise sum of two matrices of one shape. *)
Definition matrix_add (a b : list (list Z)) : list (list Z) :=
  map (fun p => map (fun q => fst q + snd q) (combine (fst p) (snd p)))
      (combine a b).

Definition gather_nd (params : ndarray T) (indices : ndarray Z)
  : result (ndarray T) :=
  let indices_shape := shape indices in
  let params_shape := shape params in
  let* num_index_dims := last_dim indices_shape in
  let result_dim_sizes := res_dim_sizes_list params_shape in
  let implicit_indices_factor :=
    getitem_clamped result_dim_sizes (Z.of_nat num_index_dims - 1) in
  let flat_params := data params in
  (* result_dim_sizes[0:num_index_dims] reshaped to [1, ..., 1, num_index_dims] *)
  let indices_scales := firstn num_index_dims result_dim_sizes in
  if negb (Nat.eqb (length indices_scales) num_index_dims)
  then Raise (EngineError CannotReshape)
  else
    let indices_for_flat_tiled :=
      tile_columns
        (map (fun row => dot row indices_scales)
             (index_tuples indices num_index_dims))
        implicit_indices_factor in
    let implicit_indices :=
      tile_rows (arange implicit_indices_factor)
                (length indices_for_flat_tiled) in
    let indices_for_flat := matrix_add indices_for_flat_tiled implicit_indices in
    let flat_indices_for_flat := map astype_int32 (concat indices_for_flat) in
    let flat_gather := take flat_params flat_indices_for_flat in
    let new_shape :=
      removelast indices_shape ++ skipn num_index_dims params_shape in
    let* ret := reshape flat_gather new_shape in
    Ok (_to_device ret).

End Gather.

(** ** Indexing an array by a tuple of integers

    The meaning of [a[i0, ..., ik-1, ...]], defined axis by axis and
    independently of any stride arithmetic: fixing the first axis of a
    row-major array of shape [d :: ds] at [i] selects its [i]-th run of
    [size_of ds] elements. *)

Definition subarray {T} (a : ndarray T) (i : Z) : option (ndarray T) :=
  match shape a with
  | [] => None
  | d :: ds =>
      if (0 <=? i) && (i <? Z.of_nat d)
      then Some (mk_ndarray ds
                   (firstn (size_of ds)
                      (skipn (Z.to_nat i * size_of ds) (data a))))
      else None
  end.

Fixpoint get_item {T} (a : ndarray T) (idx : list Z) : option (ndarray T) :=
  match idx with
  | [] => Some a
  | i :: rest =>
      match subarray a i with
      | Some b => get_item b rest
      | None => None
      end
  end.

(** Every coordinate of [idx] lies within the axis it addresses. *)
Fixpoint tuple_in_range (s : list nat) (idx : list Z) {struct idx} : bool :=
  match idx, s with
  | [], _ => true
  | i :: idx', d :: s' =>
      (0 <=? i) && (i <? Z.of_nat d) && tuple_in_range s' idx'
  | _ :: _, [] => false
  end.

(** Row-major position of the block addressed by [idx]. *)
Fixpoint flat_offset (s : list nat) (idx : list Z) {struct idx} : nat :=
  match idx, s with
  | i :: idx', d :: s' => (Z.to_nat i * size_of s' + flat_offset s' idx')%nat
  | _, _ => 0%nat
  end.

(** Stride of every axis: [strides s !! i] is the size of [s[i+1:]]. *)
Fixpoint strides (s : list nat) : list nat :=
  match s with
  | [] => []
  | _ :: s' => size_of s' :: strides s'
  end.

(** ** Scalars

    The element type of the arrays which the scatter functions and the
    in-place emulation compute with, together with the engine's
    elementwise operations and the literals [0.0] and [1e12] that the
    source writes.  [minimum] and [maximum] are [jnp.minimum] and
    [jnp.maximum]; [eqb] is the elementwise [==]. *)
Class Scalar (T : Type) := {
  zero : T;
  one : T;
  big : T;
  opp : T -> T;
  add : T -> T -> T;
  sub : T -> T -> T;
  mul : T -> T -> T;
  minimum : T -> T -> T;
  maximum : T -> T -> T;
  eqb : T -> T -> bool
}.

(** Binary64 floats.  A NaN operand makes [jnp.minimum] and
    [jnp.maximum] return NaN; [==] is the IEEE comparison. *)
Definition float_minimum (x y : float) : float :=
  if PrimFloat.is_nan x then x
  else if PrimFloat.is_nan y then y
  else if PrimFloat.ltb y x then y else x.

Definition float_maximum (x y : float) : float :=
  if PrimFloat.is_nan x then x
  else if PrimFloat.is_nan y then y
  else if PrimFloat.ltb x y then y else x.

#[export] Instance float_scalar : Scalar float := {
  zero := 0%float;
  one := 1%float;
  big := 1e12%float;
  opp := PrimFloat.opp;
  add := PrimFloat.add;
  sub := PrimFloat.sub;
  mul := PrimFloat.mul;
  minimum := float_minimum;
  maximum := float_maximum;
  eqb := PrimFloat.eqb
}.

(** ** Broadcasting *)

(** The [n] consecutive runs of [sz] elements of [l]. *)
Definition chunks {A} (sz n : nat) (l : list A) : list (list A) :=
  map (fun j => firstn sz (skipn (j * sz) l)) (seq 0 n).

Fixpoint sequence_result {A} (rs : list (result A)) : result (list A) :=
  match rs with
  | [] => Ok []
  | r :: rs' =>
      let* x := r in
      let* xs := sequence_result rs' in
      Ok (x :: xs)
  end.

(** Stretch row-major data of shape [s] to shape [target], both of one
    rank: an axis is kept when the extents agree and repeated when its
    extent is 1. *)
Fixpoint stretch {A} (s target : list nat) (l : list A) {struct s}
  : result (list A) :=
  match s, target with
  | [], [] => Ok l
  | d :: s', t :: target' =>
      if Nat.eqb d t then
        let* parts :=
          sequence_result (map (stretch s' target') (chunks (size_of s') d l)) in
        Ok (concat parts)
      else if Nat.eqb d 1 then
        let* part := stretch s' target' l in
        Ok (concat (repeat part t))
      else Raise (EngineError IncompatibleShapes)
  | _, _ => Raise (EngineError IncompatibleShapes)
  end.

(** Shapes of one rank of which the first can be stretched to the
    second: every extent is that of the target, or 1. *)
Fixpoint compatible (s target : list nat) {struct s} : bool :=
  match s, target with
  | [], [] => true
  | d :: s', t :: target' =>
      (Nat.eqb d t || Nat.eqb d 1) && compatible s' target'
  | _, _ => false
  end.

(** [broadcast_to(a, target)] with the usual rules: shapes are aligned
    at their last axes, missing leading axes count as 1. *)
Definition broadcast_to {A} (a : ndarray A) (target : list nat)
  : result (ndarray A) :=
  if (length target <? length (shape a))%nat
  then Raise (EngineError IncompatibleShapes)
  else
    let padded :=
      repeat 1%nat (length target - length (shape a)) ++ shape a in
    if compatible padded target then
      let* l := stretch padded target (data a) in
      Ok (mk_ndarray target l)
    else Raise (EngineError IncompatibleShapes).

(** *** What a broadcast is

    The coordinates in the operand from which position [idx] of its
    broadcast is read: the shapes are aligned at their last axes, and
    along an axis of extent 1 the only element is repeated. *)
Fixpoint source_index (s : list nat) (idx : list Z) {struct s} : list Z :=
  match s, idx with
  | d :: s', i :: idx' =>
      (if Nat.eqb d 1 then 0 else i) :: source_index s' idx'
  | _, _ => []
  end.

Definition broadcast_index (s : list nat) (idx : list Z) : list Z :=
  source_index s (skipn (length idx - length s) idx).

(** A shape that can be broadcast to [target]. *)
Definition broadcastable (s target : list nat) : bool :=
  (length s <=? length target)%nat
  && compatible (repeat 1%nat (length target - length s) ++ s) target.

(** [r] is [a] broadcast to [target]: it has that shape, holds as many
    elements as the shape says, and reads at every position the
    element of [a] at the aligned coordinates. *)
Definition is_broadcast_of {A} (a : ndarray A) (target : list nat)
    (r : ndarray A) : Prop :=
  shape r = target /\
  well_formed r /\
  forall idx : list Z,
    length idx = length target ->
    tuple_in_range target idx = true ->
    get_item r idx = get_item a (broadcast_index (shape a) idx).

(** Shape of the elementwise combination of two operands, computed on
    the reversed shapes. *)
Fixpoint broadcast_shapes_rev (r1 r2 : list nat) : result (list nat) :=
  match r1, r2 with
  | [], r => Ok r
  | r, [] => Ok r
  | a :: r1', b :: r2' =>
      let* r := broadcast_shapes_rev r1' r2' in
      if Nat.eqb a b then Ok (a :: r)
      else if Nat.eqb a 1 then Ok (b :: r)
      else if Nat.eqb b 1 then Ok (a :: r)
      else Raise (EngineError IncompatibleShapes)
  end.

Definition broadcast_shapes (s1 s2 : list nat) : result (list nat) :=
  let* r := broadcast_shapes_rev (rev s1) (rev s2) in
  Ok (rev r).

(** Pointwise combination of two lists of one length. *)
Definition zip_with {A B C} (f : A -> B -> C) (l1 : list A) (l2 : list B)
  : list C :=
  map (fun p => f (fst p) (snd p)) (combine l1 l2).

(** An elementwise binary engine operation, such as [a + b]. *)
Definition elementwise {A} (f : A -> A -> A) (a b : ndarray A)
  : result (ndarray A) :=
  let* s := broadcast_shapes (shape a) (shape b) in
  let* a' := broadcast_to a s in
  let* b' := broadcast_to b s in
  Ok (mk_ndarray s (zip_with f (data a') (data b'))).

(** ** Values, wrappers and the store *)

(** The runtime classes which [is_native_array] tests for. *)
Inductive jax_class :=
| XlaDeviceArray          (* jax.interpreters.xla._DeviceArray *)
| DeviceArray             (* jaxlib.xla_extension.DeviceArray *)
| Buffer                  (* jaxlib.xla_extension.Buffer *)
| JVPTracer               (* jax.interpreters.ad.JVPTracer *)
| ShapedArray             (* jax.core.ShapedArray *)
| DynamicJaxprTracer.     (* jax.interpreters.partial_eval.DynamicJaxprTracer *)

#[export] Instance jax_class_eq_dec : EqDecision jax_class.
Proof. solve_decision. Defined.

(** [isinstance(x, classes)] on the class of [x]. *)
Definition isinstance (c : jax_class) (classes : list jax_class) : bool :=
  bool_decide (c ∈ classes).

(** Class of the result of an engine operation: concrete, unless an
    operand is one of the tracing proxies. *)
Definition result_class (c1 c2 : jax_class) : jax_class :=
  if isinstance c1 [JVPTracer; ShapedArray; DynamicJaxprTracer] then c1
  else if isinstance c2 [JVPTracer; ShapedArray; DynamicJaxprTracer] then c2
  else DeviceArray.

(** ['reduction is {}, but it must be one of "sum", "min" or "max"'.format(reduction)] *)
Definition reduction_message (reduction : string) : string :=
  let q := String (ascii_of_nat 34) EmptyString in
  ("reduction is " ++ reduction ++ ", but it must be one of "
   ++ q ++ "sum" ++ q ++ ", " ++ q ++ "min" ++ q ++ " or " ++ q ++ "max" ++ q)%string.

Definition not_supported_message : string :=
  "JAX does not natively support inplace updates".

Section Backend.

Context {T : Type} `{Scalar T}.

(** An engine array (or tracing proxy) as a Python object. *)
Record native := mk_native {
  cls : jax_class;
  arr : ndarray T
}.

(** The objects the functions are called with: an engine array, a
    framework wrapper ([ivy.Array], identified by its address), or
    something that is neither (identified by its [repr]). *)
Inductive value :=
| VNative (x : native)
| VIvyArray (r : nat)
| VOther (repr : string).

(** The data slot of every live wrapper. *)
Definition store := gmap nat native.

Definition is_native_array (x : value) (exclusive : bool) : bool :=
  match x with
  | VNative n =>
      if exclusive
      then isinstance (cls n) [XlaDeviceArray; DeviceArray; Buffer]
      else isinstance (cls n)
             [XlaDeviceArray; DeviceArray; Buffer;
              JVPTracer; ShapedArray; DynamicJaxprTracer]
  | _ => false
  end.

Definition inplace_arrays_supported : bool := false.

Definition inplace_variables_supported : bool := false.

(** Modelled from the spec: [ivy.exists], the not-absent check. *)
Definition exists_ {A} (x : option A) : bool :=
  match x with
  | Some _ => true
  | None => false
  end.

(** Modelled from the spec: [ivy.is_ivy_array], the test "is this a
    framework-owned array". *)
Definition is_ivy_array (x : value) : bool :=
  match x with
  | VIvyArray _ => true
  | _ => false
  end.

(** Modelled from the spec: [ivy.is_array], true of framework-owned
    wrappers and of the engine's arrays. *)
Definition is_array (x : value) : bool :=
  is_ivy_array x || is_native_array x false.

(** Modelled from the spec: [ivy.to_native] / [ivy.args_to_native], the
    conversion of a wrapper to the engine array in its data slot; any
    other object is passed through. *)
Definition to_native (st : store) (x : value) : result value :=
  match x with
  | VIvyArray r =>
      match st !! r with
      | Some n => Ok (VNative n)
      | None => Raise (EngineError MissingAttribute)
      end
  | _ => Ok x
  end.

Definition args_to_native (st : store) (x val : value)
  : result (value * value) :=
  let* x_native := to_native st x in
  let* val_native := to_native st val in
  Ok (x_native, val_native).

(** Modelled from the spec: [ivy.Array(data)], a new wrapper whose data
    slot holds [data]. *)
Definition new_ivy_array (st : store) (d : native) : value * store :=
  let r := fresh (dom st) in
  (VIvyArray r, <[r := d]> st).

(** Modelled from the spec: [ivy.assertions.check_equal], failing with
    a descriptive assertion-style error unless both sides are equal. *)
Definition check_equal (ok : bool) (x1 x2 : operand) : result unit :=
  if ok then Ok tt else Raise (IvyException (MustBeEqual x1 x2)).

(** The engine array behind an array argument (attribute access such as
    [x.shape] or [x.at] goes through a wrapper to its data). *)
Definition as_native (st : store) (x : value) : result native :=
  let* v := to_native st x in
  match v with
  | VNative n => Ok n
  | _ => Raise (EngineError MissingAttribute)
  end.

(** [a + b], [a - b] on two Python objects. *)
Definition arith (f : T -> T -> T) (a b : value) : result native :=
  match a, b with
  | VNative x, VNative y =>
      let* r := elementwise f (arr x) (arr y) in
      Ok (mk_native (result_class (cls x) (cls y)) r)
  | _, _ => Raise (EngineError UnsupportedOperand)
  end.

Definition inplace_decrement (x val : value) (st : store)
  : result (value * store) :=
  let* '(x_native, val_native) := args_to_native st x val in
  match x with
  | VIvyArray r =>
      (* ivy.is_ivy_array(x): x.data -= val_native *)
      let* d := to_native st x in
      let* d' := arith sub d val_native in
      Ok (x, <[r := d']> st)
  | _ =>
      (* x = ivy.Array(x_native - val_native) *)
      let* d := arith sub x_native val_native in
      Ok (new_ivy_array st d)
  end.

Definition inplace_increment (x val : value) (st : store)
  : result (value * store) :=
  let* '(x_native, val_native) := args_to_native st x val in
  match x with
  | VIvyArray r =>
      (* ivy.is_ivy_array(x): x.data += val_native *)
      let* d := to_native st x in
      let* d' := arith add d val_native in
      Ok (x, <[r := d']> st)
  | _ =>
      (* x = ivy.Array(x_native + val_native) *)
      let* d := arith add x_native val_native in
      Ok (new_ivy_array st d)
  end.

Definition inplace_update (x val : value) (ensure_in_backend : bool)
    (st : store) : result (value * store) :=
  if is_array x && is_array val then
    if ensure_in_backend
    then Raise (IvyException (Text not_supported_message))
    else
      let* '(x_native, val_native) := args_to_native st x val in
      match x, val_native with
      | VIvyArray r, VNative d =>
          (* ivy.is_ivy_array(x): x.data = val_native *)
          Ok (x, <[r := d]> st)
      | VIvyArray r, _ =>
          (* not reached: an array [val] has an engine array as native value *)
          Raise (EngineError MissingAttribute)
      | _, _ => Raise (IvyException (Text not_supported_message))
      end
  else Ok (val, st).

(** Modelled from the spec: [ivy.inplace_update], the entry of the
    framework's dispatch layer, which routes the call to the
    [inplace_update] of the active backend, here the one above. *)
Definition ivy_inplace_update (x val : value) (ensure_in_backend : bool)
    (st : store) : result (value * store) :=
  inplace_update x val ensure_in_backend st.

(** ** Indexed updates: [target.at[index].op(updates)] *)

(** An index expression whose advanced part addresses the first
    [num_axes] axes with [index_tuples_of] (one coordinate tuple per
    addressed block, in row-major order of [index_shape]) and whose
    remaining axes are taken whole. *)
Record indexer := mk_indexer {
  num_axes : nat;
  index_shape : list nat;
  index_tuples_of : list (list Z)
}.

(** Row-major position of the block addressed by a coordinate tuple; a
    negative coordinate counts from the end of its axis, a tuple with a
    coordinate outside its axis addresses nothing. *)
Fixpoint tuple_offset (s : list nat) (t : list Z) {struct t} : option nat :=
  match t, s with
  | [], _ => Some 0%nat
  | i :: t', d :: s' =>
      let j := if i <? 0 then i + Z.of_nat d else i in
      if (0 <=? j) && (j <? Z.of_nat d) then
        match tuple_offset s' t' with
        | Some o => Some (Z.to_nat j * size_of s' + o)%nat
        | None => None
        end
      else None
  | _ :: _, [] => None
  end.

(** Combine the run of [l] that starts at [off] with [blk]. *)
Definition write_block (op : T -> T -> T) (l : list T) (off : nat)
    (blk : list T) : list T :=
  firstn off l
  ++ zip_with op (firstn (length blk) (skipn off l)) blk
  ++ skipn (off + length blk) l.

(** One update of the scatter: block [blk] lands on the block addressed
    by [t]; updates that address nothing are dropped. *)
Definition scatter_step (op : T -> T -> T) (s : list nat) (l : list T)
    (tb : list Z * list T) : list T :=
  match tuple_offset s (fst tb) with
  | Some o => write_block op l o (snd tb)
  | None => l
  end.

(** A shape with an extent 0. *)
Definition is_empty_shape (s : list nat) : bool := existsb (Nat.eqb 0) s.

(** [target.at[ix].op(updates)]: when the addressed slice [target[ix]]
    is empty the target is returned as it is, before [updates] is
    looked at; otherwise [updates] is broadcast to the shape of the
    slice, and its blocks are combined into [target] one after the
    other.  (Where several tuples address one block the engine leaves
    the order of a [set] open; here the later update wins.) *)
Definition index_update (op : T -> T -> T) (target : ndarray T)
    (ix : indexer) (updates : ndarray T) : result (ndarray T) :=
  if (length (shape target) <? num_axes ix)%nat
  then Raise (EngineError TooManyIndices)
  else
    let trailing := skipn (num_axes ix) (shape target) in
    let slice_shape := index_shape ix ++ trailing in
    if is_empty_shape slice_shape then Ok target
    else
      let* u := broadcast_to updates slice_shape in
      let blocks :=
        chunks (size_of trailing) (length (index_tuples_of ix)) (data u) in
      Ok (mk_ndarray (shape target)
            (fold_left (scatter_step op (shape target))
               (combine (index_tuples_of ix) blocks) (data target))).

(** [target.at[indices]] for an integer array [indices]. *)
Definition flat_indexer (indices : ndarray Z) : indexer :=
  mk_indexer 1 (shape indices) (map (fun i => [i]) (data indices)).

(** [target.at[...]] and [target.at[()]]: the whole target. *)
Definition whole_indexer : indexer := mk_indexer 0 [] [[]].

(** Class of [target.at[ix].op(updates)], the result of an engine
    operation on the target and an engine array. *)
Definition scatter_class (t : native) : jax_class :=
  result_class (cls t) DeviceArray.

Definition at_add := index_update add.
Definition at_set := index_update (fun _ u => u).
Definition at_min := index_update minimum.
Definition at_max := index_update maximum.

(** [jnp.zeros(shape)] *)
Definition zeros (s : list nat) : ndarray T :=
  mk_ndarray s (repeat zero (size_of s)).

(** [jnp.ones(shape) * c] *)
Definition ones_times (s : list nat) (c : T) : ndarray T :=
  mk_ndarray s (map (fun x => mul x c) (repeat one (size_of s))).

(** [jnp.where(target == c, 0.0, target)] *)
Definition where_eq_zero (c : T) (target : ndarray T) : ndarray T :=
  mk_ndarray (shape target)
    (map (fun x => if eqb x c then zero else x) (data target)).

(** The array to start from: the caller's buffer, or a fresh array of
    the given fill. *)
Definition initial_target (st : store) (target : option value)
    (fresh_target : result (ndarray T)) : result native :=
  match target with
  | Some o => as_native st o
  | None => let* a := fresh_target in Ok (mk_native DeviceArray a)
  end.

(** [jnp.zeros([size])] and the like for an optional [size]. *)
Definition fresh_flat (size : option nat) (mk : list nat -> ndarray T)
  : result (ndarray T) :=
  match size with
  | Some n => Ok (mk [n])
  | None => Raise (EngineError InvalidShape)
  end.

(** Lines 211-213: an explicit [size] and a given target must agree. *)
Definition check_size (size : option nat) (target : option value)
    (st : store) : result unit :=
  match size, target with
  | Some n, Some o =>
      let* t := as_native st o in
      let* _ := check_equal (Nat.eqb (length (shape (arr t))) 1)
                  (OInt (Z.of_nat (length (shape (arr t))))) (OInt 1) in
      check_equal (Nat.eqb (nth 0 (shape (arr t)) 0%nat) n)
        (OInt (Z.of_nat (nth 0 (shape (arr t)) 0%nat))) (OInt (Z.of_nat n))
  | _, _ => Ok tt
  end.

Definition scatter_flat (indices : ndarray Z) (updates : ndarray T)
    (size : option nat) (reduction : string) (out : option value)
    (st : store) : result (value * store) :=
  let target := out in
  let target_given := exists_ target in
  let* _ := check_size size target st in
  let* target :=
    if String.eqb reduction "sum" then
      let* t := initial_target st target (fresh_flat size zeros) in
      let* a := at_add (arr t) (flat_indexer indices) updates in
      Ok (mk_native (scatter_class t) a)
    else if String.eqb reduction "replace" then
      let* t := initial_target st target (fresh_flat size zeros) in
      let* a := at_set (arr t) (flat_indexer indices) updates in
      Ok (mk_native (scatter_class t) a)
    else if String.eqb reduction "min" then
      let* t := initial_target st target
                  (fresh_flat size (fun s => ones_times s big)) in
      let* a := at_min (arr t) (flat_indexer indices) updates in
      Ok (mk_native (scatter_class t)
            (if negb target_given then where_eq_zero big a else a))
    else if String.eqb reduction "max" then
      let* t := initial_target st target
                  (fresh_flat size (fun s => ones_times s (opp big))) in
      let* a := at_max (arr t) (flat_indexer indices) updates in
      Ok (mk_native (scatter_class t)
            (if negb target_given then where_eq_zero (opp big) a else a))
    else Raise (IvyException (Text (reduction_message reduction))) in
  Ok (VNative (_to_device target), st).

(** What [scatter_nd] may be given as [indices]: the select-everything
    markers [Ellipsis] and [()], a bare number, or an integer array. *)
Inductive index_arg :=
| IEllipsis
| IEmptyTuple
| INumber (z : Z)
| IArray (a : ndarray Z).

(** Lines 254-260: a number becomes [[[z]]], an array of rank below 2
    gets a leading axis; the select-everything markers are left alone
    ([None]).  The test [Ellipsis in indices] of line 255 iterates an
    array, which an array of rank 0 does not allow. *)
Definition parse_indices (indices : index_arg)
  : result (option (ndarray Z)) :=
  match indices with
  | IEllipsis | IEmptyTuple => Ok None
  | INumber z => Ok (Some (mk_ndarray [1; 1]%nat [z]))
  | IArray a =>
      if Nat.eqb (length (shape a)) 0
      then Raise (EngineError IterationOverRankZero)
      else if (length (shape a) <? 2)%nat
      then Ok (Some (mk_ndarray (1%nat :: shape a) (data a)))
      else Ok (Some a)
  end.

(** Lines 275-279. *)
Definition expected_shape_of (indices : ndarray Z) (out : option value)
    (shp : option (list nat)) (st : store) : result (list nat) :=
  let* k := last_dim (shape indices) in
  match out with
  | Some o =>
      let* t := as_native st o in
      Ok (removelast (shape indices) ++ skipn k (shape (arr t)))
  | None =>
      match shp with
      | Some s => Ok (removelast (shape indices) ++ skipn k s)
      | None => Raise (EngineError NoneNotSubscriptable)
      end
  end.

(** Lines 280-285: which of the two operands is broadcast. *)
Definition resolve_broadcast (indices : ndarray Z) (updates : ndarray T)
    (expected_shape : list nat) : result (ndarray Z * ndarray T) :=
  if (sum_shape (shape updates) <? sum_shape expected_shape)%nat then
    let* u := broadcast_to updates expected_shape in
    Ok (indices, u)
  else if (sum_shape expected_shape <? sum_shape (shape updates))%nat then
    let* k := last_dim (shape indices) in
    let* i := broadcast_to indices (firstn 1 (shape updates) ++ [k]) in
    Ok (i, updates)
  else Ok (indices, updates).

(** Lines 286-287: [tuple(indices.reshape(-1, k).T) + (Ellipsis,)]. *)
Definition tuple_indexer (indices : ndarray Z) : result indexer :=
  let* k := last_dim (shape indices) in
  if Nat.eqb k 0 then Raise (EngineError CannotReshape)
  else
    let n := (length (data indices) / k)%nat in
    if negb (Nat.eqb (n * k) (length (data indices)))
    then Raise (EngineError CannotReshape)
    else Ok (mk_indexer k [n] (chunks k n (data indices))).

(** Lines 253-287: everything that happens to [indices] and [updates]
    before the target is looked at. *)
Definition scatter_nd_operands (indices : index_arg) (updates : ndarray T)
    (shp : option (list nat)) (out : option value) (st : store)
  : result (indexer * ndarray T) :=
  let* parsed := parse_indices indices in
  (* dtype=ivy.dtype(out, as_native=True) if ivy.exists(out) *)
  let* _ := match out with
            | Some o => let* _ := as_native st o in Ok tt
            | None => Ok tt
            end in
  match parsed with
  | None => Ok (whole_indexer, updates)
  | Some indices =>
      let* expected_shape := expected_shape_of indices out shp st in
      let* '(indices, updates) :=
        resolve_broadcast indices updates expected_shape in
      let* indices_tuple := tuple_indexer indices in
      Ok (indices_tuple, updates)
  end.

(** Lines 292-294: an explicit [shape] and a given target must agree;
    the shape to allocate is the explicit one, else that of [out]. *)
Definition target_shape (shp : option (list nat)) (target : option value)
    (st : store) : result (list nat) :=
  let* _ :=
    match shp, target with
    | Some s, Some o =>
        let* t := as_native st o in
        check_equal (bool_decide (shape (arr t) = s))
          (OShape (shape (arr t))) (OShape s)
    | _, _ => Ok tt
    end in
  match shp, target with
  | Some s, _ => Ok s
  | None, Some o => let* t := as_native st o in Ok (shape (arr t))
  | None, None => Raise (EngineError MissingAttribute)
  end.

Definition scatter_nd (indices : index_arg) (updates : ndarray T)
    (shp : option (list nat)) (reduction : string) (out : option value)
    (st : store) : result (value * store) :=
  let* '(indices_tuple, updates) :=
    scatter_nd_operands indices updates shp out st in
  let target := out in
  let target_given := exists_ target in
  let* shp := target_shape shp target st in
  let* target :=
    if String.eqb reduction "sum" then
      let* t := initial_target st target (Ok (zeros shp)) in
      let* a := at_add (arr t) indices_tuple updates in
      Ok (mk_native (scatter_class t) a)
    else if String.eqb reduction "replace" then
      let* t := initial_target st target (Ok (zeros shp)) in
      let* a := at_set (arr t) indices_tuple updates in
      Ok (mk_native (scatter_class t) a)
    else if String.eqb reduction "min" then
      let* t := initial_target st target (Ok (ones_times shp big)) in
      let* a := at_min (arr t) indices_tuple updates in
      Ok (mk_native (scatter_class t)
            (if negb target_given then where_eq_zero big a else a))
    else if String.eqb reduction "max" then
      let* t := initial_target st target (Ok (ones_times shp (opp big))) in
      let* a := at_max (arr t) indices_tuple updates in
      Ok (mk_native (scatter_class t)
            (if negb target_given then where_eq_zero (opp big) a else a))
    else Raise (IvyException (Text (reduction_message reduction))) in
  match out with
  | Some o => ivy_inplace_update o (VNative (_to_device target)) false st
  | None => Ok (VNative (_to_device target), st)
  end.

End Backend.

(** A result that is not a framework exception. *)
Definition engine_only {A} (r : result A) : Prop :=
  match r with
  | Raise (IvyException _) => False
  | _ => True
  end.

(** The positions which the update of tuple [t] may write to. *)
Definition addressed (s : list nat) (k : nat) (t : list Z) (p : nat) : Prop :=
  exists o : nat,
    tuple_offset s t = Some o /\
    (o <= p < o + size_of (skipn k s))%nat.

(** ** [gather] *)

(** What can go wrong in [gather]. *)
Inductive gather_error :=
| IterationOverZeroD      (* iterating over an array of rank 0 *)
| UnboundZipList          (* [zip_list] is read but was never bound *)
| AxisOutOfBounds         (* [jnp.take] along an axis the array does not have *)
| InhomogeneousShapes     (* [jnp.array] of arrays of different shapes *)
| ReshapeSizeMismatch     (* [reshape] to a shape of another size *)
| TakeFromEmptyAxis.      (* a non-empty [jnp.take] from an axis of extent 0 *)

Definition gbind {A B} (r : gather_error + A) (k : A -> gather_error + B)
  : gather_error + B :=
  match r with
  | inr a => k a
  | inl e => inl e
  end.

Fixpoint gsequence {A} (rs : list (gather_error + A))
  : gather_error + list A :=
  match rs with
  | [] => inr []
  | r :: rs' =>
      gbind r (fun x => gbind (gsequence rs') (fun xs => inr (x :: xs)))
  end.

(** The axis which an integer [axis] means on an array of rank [rank]. *)
Definition canonical_axis (axis : Z) (rank : nat) : option nat :=
  if (- Z.of_nat rank <=? axis) && (axis <? Z.of_nat rank)
  then Some (Z.to_nat (if axis <? 0 then axis + Z.of_nat rank else axis))
  else None.

(** [list(a)]: the sub-arrays along the first axis. *)
Definition iterate {A} (a : ndarray A) : gather_error + list (ndarray A) :=
  match shape a with
  | [] => inl IterationOverZeroD
  | d :: ds =>
      inr (map (fun j => mk_ndarray ds
                           (firstn (size_of ds) (skipn (j * size_of ds) (data a))))
             (seq 0 d))
  end.

(** [[(p, i) for p, i in zip(params, indices)]] *)
Definition zip_arrays {A B} (pi : ndarray A * ndarray B)
  : gather_error + list (ndarray A * ndarray B) :=
  gbind (iterate (fst pi)) (fun ps =>
  gbind (iterate (snd pi)) (fun is_ =>
  inr (combine ps is_))).

(** The value of [zip_list] after [n] rounds of the loop of lines
    92-98: the first round zips the two arrays, every further round
    zips the two members of every pair. *)
Fixpoint zip_list_after {A B} (n : nat) (params : ndarray A)
    (indices : ndarray B) : gather_error + list (ndarray A * ndarray B) :=
  match n with
  | 0%nat => inl UnboundZipList
  | S m =>
      match m with
      | 0%nat => zip_arrays (params, indices)
      | S _ =>
          gbind (zip_list_after m params indices) (fun zip_list =>
          gbind (gsequence (map zip_arrays zip_list)) (fun zs =>
          inr (concat zs)))
      end
  end.

(** [jnp.array(arrays)]: the arrays stacked along a new first axis. *)
Definition stack {A} (arrays : list (ndarray A)) : gather_error + ndarray A :=
  match arrays with
  | [] => inr (mk_ndarray [0%nat] [])
  | a :: _ =>
      if forallb (fun b => bool_decide (shape b = shape a)) arrays
      then inr (mk_ndarray (length arrays :: shape a)
                  (concat (map data arrays)))
      else inl InhomogeneousShapes
  end.

Section GatherBatched.

Context {T : Type}.
Variable fill : T.

(** The block which [jnp.take] delivers for index [i] along an axis of
    extent [d] above 0, in the [o]-th outer slice. *)
Definition take_block (l : list T) (inner d o : nat) (i : Z) : list T :=
  let j := if i <? 0 then i + Z.of_nat d else i in
  if (0 <=? j) && (j <? Z.of_nat d)
  then firstn inner (skipn ((o * d + Z.to_nat j) * inner) l)
  else repeat fill inner.

(** [jnp.take(a, indices, ax)] along an axis [ax] of [a] that is not
    empty: for every outer slice, the blocks that the indices select,
    one after the other. *)
Definition take_along (a : ndarray T) (indices : ndarray Z) (ax : nat)
  : ndarray T :=
  let outer := size_of (firstn ax (shape a)) in
  let d := nth ax (shape a) 0%nat in
  let inner := size_of (skipn (S ax) (shape a)) in
  mk_ndarray
    (firstn ax (shape a) ++ shape indices ++ skipn (S ax) (shape a))
    (concat
       (map (fun o =>
               concat (map (take_block (data a) inner d o) (data indices)))
          (seq 0 outer))).

(** [jnp.take(a, indices, axis)]: from an axis of extent 0 nothing can
    be taken; with no index at all the call then returns [a] itself. *)
Definition take_axis (a : ndarray T) (indices : ndarray Z) (axis : Z)
  : gather_error + ndarray T :=
  match canonical_axis axis (length (shape a)) with
  | None => inl AxisOutOfBounds
  | Some ax =>
      if Nat.eqb (nth ax (shape a) 0%nat) 0 then
        if Nat.eqb (size_of (shape indices)) 0
        then inr a
        else inl TakeFromEmptyAxis
      else inr (take_along a indices ax)
  end.

Definition gather (params : ndarray T) (indices : ndarray Z)
    (axis batch_dims : Z) : gather_error + ndarray T :=
  if batch_dims =? 0 then
    gbind (take_axis params indices axis) (fun result =>
    inr (_to_device result))
  else
    gbind (zip_list_after (Z.to_nat batch_dims) params indices) (fun zip_list =>
    gbind (gsequence
             (map (fun z => take_axis (fst z) (snd z) (axis - batch_dims))
                zip_list)) (fun result =>
    gbind (stack result) (fun result =>
    let new_shape :=
      firstn (Z.to_nat batch_dims) (shape params) ++ tl (shape result) in
    if Nat.eqb (length (data result)) (size_of new_shape)
    then inr (_to_device (mk_ndarray new_shape (data result)))
    else inl ReshapeSizeMismatch))).

End GatherBatched.

(** ** Sample data for the concrete runs *)

(** A store with one wrapper, at address 7, holding [[1.0, 2.0]]. *)
Definition demo_buffer : native :=
  mk_native DeviceArray (mk_ndarray [2%nat] [1.0; 2.0]%float).

Definition demo_store : store := {[ 7%nat := demo_buffer ]}.

Definition demo_val : native :=
  mk_native DeviceArray (mk_ndarray [2%nat] [10.0; 20.0]%float).

(** * Properties *)

(** ** List facts *)

Lemma fold_left_mul_acc (xs : list nat) (acc : nat) :
  fold_left Nat.mul xs acc = (acc * size_of xs)%nat.
Proof.
  revert acc. induction xs as [|x xs IH]; intros acc; simpl.
  - lia.
  - rewrite IH. lia.
Qed.

Lemma reduce_mul_size_of (xs : list nat) : reduce_mul xs = size_of xs.
Proof. unfold reduce_mul. rewrite fold_left_mul_acc. lia. Qed.

Lemma size_of_app (p q : list nat) :
  size_of (p ++ q) = (size_of p * size_of q)%nat.
Proof.
  induction p as [|d p IH]; simpl.
  - lia.
  - rewrite IH. lia.
Qed.

Lemma firstn_skipn_firstn {A} (l : list A) (a b c : nat) :
  (b + a <= c)%nat ->
  firstn a (skipn b (firstn c l)) = firstn a (skipn b l).
Proof.
  intros H.
  rewrite skipn_firstn_comm, firstn_firstn.
  f_equal. lia.
Qed.

Lemma skipn_skipn_add {A} (l : list A) (a b : nat) :
  skipn a (skipn b l) = skipn (b + a) l.
Proof.
  revert l. induction b as [|b IH]; intros l; simpl.
  - reflexivity.
  - destruct l as [|x l].
    + now rewrite skipn_nil.
    + apply IH.
Qed.

Lemma strides_length (s : list nat) : length (strides s) = length s.
Proof. induction s; simpl; congruence. Qed.

Lemma res_dim_sizes_list_strides (s : list nat) :
  s <> [] -> res_dim_sizes_list s = strides s.
Proof.
  unfold res_dim_sizes_list.
  induction s as [|d s IH]; intros Hne; [congruence|].
  destruct s as [|d' s].
  - reflexivity.
  - specialize (IH ltac:(discriminate)).
    replace (length (d :: d' :: s) - 1)%nat with (S (length (d' :: s) - 1))
      by (simpl; lia).
    rewrite <- cons_seq, <- seq_shift, map_cons, map_map.
    simpl app. rewrite reduce_mul_size_of.
    change (strides (d :: d' :: s)) with (size_of (d' :: s) :: strides (d' :: s)).
    f_equal. exact IH.
Qed.

Lemma nth_strides (s : list nat) (i : nat) :
  (i < length s)%nat -> nth i (strides s) 0%nat = size_of (skipn (S i) s).
Proof.
  revert i. induction s as [|d s IH]; intros i Hi; simpl in Hi; [lia|].
  destruct i as [|i].
  - reflexivity.
  - simpl strides. simpl nth. rewrite IH by lia. reflexivity.
Qed.

Lemma skipn_cons_nth {A} (l : list A) (n : nat) (dflt : A) :
  (n < length l)%nat -> skipn n l = nth n l dflt :: skipn (S n) l.
Proof.
  revert n. induction l as [|x l IH]; intros n Hn; simpl in Hn; [lia|].
  destruct n as [|n].
  - reflexivity.
  - simpl. rewrite (IH n) by lia. reflexivity.
Qed.

(** In a concatenation of runs of one length, the [j]-th run sits at
    position [j * f]. *)
Lemma concat_uniform_chunk {A} (ls : list (list A)) (f j : nat) :
  Forall (fun b => length b = f) ls ->
  (j < length ls)%nat ->
  firstn f (skipn (j * f) (concat ls)) = nth j ls [].
Proof.
  intros Hall. revert j.
  induction Hall as [|b ls Hb Hall IH]; intros j Hj; simpl in Hj; [lia|].
  destruct j as [|j]; cbn [concat nth].
  - change (firstn f (b ++ concat ls) = b).
    rewrite firstn_app, Hb, Nat.sub_diag, firstn_O, app_nil_r.
    rewrite <- Hb. apply firstn_all.
  - replace (S j * f)%nat with (length b + j * f)%nat by (rewrite Hb; lia).
    rewrite skipn_app, Nat.add_comm, Nat.add_sub.
    rewrite (skipn_all2 b) by lia.
    cbn [app]. apply IH. lia.
Qed.

(** ** Facts about tuple indexing *)

Lemma tuple_in_range_length (s : list nat) (idx : list Z) :
  tuple_in_range s idx = true -> (length idx <= length s)%nat.
Proof.
  revert s. induction idx as [|i idx IH]; intros s H; simpl.
  - lia.
  - destruct s as [|d s]; simpl in H; [discriminate|].
    apply andb_prop in H as [_ H]. apply IH in H. simpl. lia.
Qed.

Lemma tuple_in_range_app (p q : list nat) (idx : list Z) :
  tuple_in_range p idx = true -> tuple_in_range (p ++ q) idx = true.
Proof.
  revert p. induction idx as [|i idx IH]; intros p H; [reflexivity|].
  destruct p as [|d p]; simpl in H; [discriminate|].
  apply andb_prop in H as [Hi H]. simpl. rewrite Hi. simpl. now apply IH.
Qed.

Lemma flat_offset_app (p q : list nat) (idx : list Z) :
  tuple_in_range p idx = true ->
  flat_offset (p ++ q) idx = (flat_offset p idx * size_of q)%nat.
Proof.
  revert p. induction idx as [|i idx IH]; intros p H.
  - destruct p; reflexivity.
  - destruct p as [|d p]; simpl in H; [discriminate|].
    apply andb_prop in H as [_ H]. simpl.
    rewrite IH by assumption. rewrite size_of_app. lia.
Qed.

(** The block addressed by an in-range tuple lies inside the array. *)
Lemma flat_offset_bound (s : list nat) (idx : list Z) :
  tuple_in_range s idx = true ->
  (flat_offset s idx + size_of (skipn (length idx) s) <= size_of s)%nat.
Proof.
  revert s. induction idx as [|i idx IH]; intros s H.
  - simpl. destruct s; simpl; lia.
  - destruct s as [|d s]; simpl in H; [discriminate|].
    apply andb_prop in H as [Hi H]. apply andb_prop in Hi as [H0 Hd].
    apply Z.leb_le in H0. apply Z.ltb_lt in Hd.
    specialize (IH s H). simpl.
    assert (Z.to_nat i < d)%nat by lia. nia.
Qed.

(** Indexing by a tuple is reading a window of the row-major data. *)
Lemma get_item_window {T} (l : list T) (s : list nat) (o : nat) (idx : list Z) :
  tuple_in_range s idx = true ->
  get_item (mk_ndarray s (firstn (size_of s) (skipn o l))) idx =
  Some (mk_ndarray (skipn (length idx) s)
          (firstn (size_of (skipn (length idx) s))
             (skipn (o + flat_offset s idx) l))).
Proof.
  revert s o. induction idx as [|i idx IH]; intros s o H.
  - simpl. destruct s; simpl; rewrite Nat.add_0_r; reflexivity.
  - destruct s as [|d s]; simpl in H; [discriminate|].
    apply andb_prop in H as [Hi H].
    cbn [get_item]. unfold subarray. cbn [shape data]. rewrite Hi.
    apply andb_prop in Hi as [H0 Hd].
    apply Z.leb_le in H0. apply Z.ltb_lt in Hd.
    rewrite firstn_skipn_firstn
      by (simpl; assert (Z.to_nat i < d)%nat by lia; nia).
    rewrite skipn_skipn_add, IH by assumption.
    cbn [length skipn flat_offset]. rewrite Nat.add_assoc. reflexivity.
Qed.

Lemma get_item_flat {T} (a : ndarray T) (idx : list Z) :
  well_formed a ->
  tuple_in_range (shape a) idx = true ->
  get_item a idx =
  Some (mk_ndarray (skipn (length idx) (shape a))
          (firstn (size_of (skipn (length idx) (shape a)))
             (skipn (flat_offset (shape a) idx) (data a)))).
Proof.
  intros Hwf H. destruct a as [s l]. unfold well_formed in Hwf. simpl in *.
  rewrite <- (firstn_all l) at 1. rewrite Hwf.
  change l with (skipn 0 l) at 1.
  now rewrite get_item_window.
Qed.

(** ** The stride arithmetic of [gather_nd] *)

Lemma fold_left_Zadd_acc (l : list Z) (acc : Z) :
  fold_left Z.add l acc = acc + fold_left Z.add l 0.
Proof.
  revert acc. induction l as [|x l IH]; intros acc; cbn [fold_left].
  - lia.
  - rewrite (IH (acc + x)), (IH (0 + x)). lia.
Qed.

Lemma dot_cons (i : Z) (t : list Z) (x : nat) (xs : list nat) :
  dot (i :: t) (x :: xs) = i * Z.of_nat x + dot t xs.
Proof. unfold dot. simpl. now rewrite fold_left_Zadd_acc. Qed.

(** The dot product of an in-range tuple with the strides of the axes it
    addresses is the row-major position of its block. *)
Lemma dot_strides (s : list nat) (t : list Z) :
  tuple_in_range s t = true ->
  dot t (firstn (length t) (strides s)) = Z.of_nat (flat_offset s t).
Proof.
  revert s. induction t as [|i t IH]; intros s H.
  - reflexivity.
  - destruct s as [|d s]; simpl in H; [discriminate|].
    apply andb_prop in H as [Hi H]. apply andb_prop in Hi as [H0 _].
    apply Z.leb_le in H0.
    cbn [length strides firstn flat_offset].
    rewrite dot_cons, IH by assumption. lia.
Qed.

Lemma astype_int32_small (z : Z) :
  - 2 ^ 31 <= z < 2 ^ 31 -> astype_int32 z = z.
Proof. intros H. unfold astype_int32. rewrite Z.mod_small; lia. Qed.

Lemma combine_repeat_add (x : Z) (js : list Z) (n : nat) :
  length js = n ->
  map (fun q : Z * Z => fst q + snd q) (combine (repeat x n) js)
  = map (fun i => x + i) js.
Proof.
  revert n. induction js as [|j js IH]; intros n Hn; subst n; [reflexivity|].
  cbn [length repeat map combine fst snd]. f_equal. now apply IH.
Qed.

Lemma arange_length (n : nat) : length (arange n) = n.
Proof. unfold arange. now rewrite length_map, length_seq. Qed.

(** Tiling the offsets along the columns, tiling [arange] along the rows
    and adding gives, per offset, the run of positions starting there. *)
Lemma matrix_add_tiles (col : list Z) (f : nat) :
  matrix_add (tile_columns col f)
             (tile_rows (arange f) (length (tile_columns col f)))
  = map (fun off => map (fun i => off + i) (arange f)) col.
Proof.
  unfold matrix_add, tile_columns, tile_rows. rewrite length_map.
  induction col as [|x col IH]; [reflexivity|].
  cbn [map length repeat combine fst snd]. f_equal; [|exact IH].
  apply combine_repeat_add, arange_length.
Qed.

Lemma last_dim_split (s : list nat) (k : nat) :
  last_dim s = Ok k -> s = removelast s ++ [k].
Proof.
  destruct s as [|d s]; [discriminate|].
  intros H.
  etransitivity;
    [exact (app_removelast_last (l := d :: s) 0%nat ltac:(discriminate))|].
  do 2 f_equal. simpl in *. congruence.
Qed.

Lemma concat_uniform_length {A} (ls : list (list A)) (f : nat) :
  Forall (fun b => length b = f) ls ->
  length (concat ls) = (length ls * f)%nat.
Proof.
  induction 1 as [|b ls Hb _ IH]; [reflexivity|].
  cbn [concat length]. rewrite length_app, IH, Hb. lia.
Qed.

Lemma getitem_clamped_strides (s : list nat) (k : nat) :
  (1 <= k <= length s)%nat ->
  getitem_clamped (strides s) (Z.of_nat k - 1) = size_of (skipn k s).
Proof.
  intros Hk. unfold getitem_clamped. rewrite strides_length.
  destruct (Z.ltb_spec (Z.of_nat k - 1) 0) as [?|_]; [lia|].
  replace (Z.to_nat (Z.max 0 (Z.min (Z.of_nat k - 1) (Z.of_nat (length s) - 1))))
    with (k - 1)%nat by lia.
  rewrite nth_strides by lia. f_equal. f_equal. lia.
Qed.

Section GatherFacts.

Context {T : Type}.
Variable fill : T.

(** Reading [f] consecutive positions from [off] on is taking the
    window of the flat data, as long as every position fits the
    32-bit cast. *)
Lemma take_window (flat : list T) (off f : nat) :
  (off + f <= length flat)%nat ->
  Z.of_nat (length flat) <= 2 ^ 31 ->
  take fill flat (map astype_int32 (map (fun i => Z.of_nat off + i) (arange f)))
  = firstn f (skipn off flat).
Proof.
  unfold take, arange. rewrite !map_map.
  revert off. induction f as [|f IH]; intros off Hlen H32.
  - reflexivity.
  - rewrite <- cons_seq, <- seq_shift, map_cons, map_map.
    rewrite (skipn_cons_nth flat off fill) by lia.
    cbn [firstn]. f_equal.
    + rewrite astype_int32_small by lia.
      unfold take1.
      destruct (Z.ltb_spec (Z.of_nat off + Z.of_nat 0) 0) as [?|_]; [lia|].
      destruct (Z.leb_spec 0 (Z.of_nat off + Z.of_nat 0)) as [_|?]; [|lia].
      destruct (Z.ltb_spec (Z.of_nat off + Z.of_nat 0)
                  (Z.of_nat (length flat))) as [_|?]; [|lia].
      cbn [andb]. f_equal. lia.
    + rewrite <- (IH (S off)) by lia.
      apply map_ext. intros i. do 2 f_equal. lia.
Qed.

Lemma gather_nd_unfold (params : ndarray T) (indices : ndarray Z) (k : nat) :
  last_dim (shape indices) = Ok k ->
  (1 <= k <= length (shape params))%nat ->
  gather_nd fill params indices =
  reshape
    (concat
       (map (fun t =>
               take fill (data params)
                 (map astype_int32
                    (map (fun i => dot t (firstn k (strides (shape params))) + i)
                       (arange (size_of (skipn k (shape params)))))))
          (index_tuples indices k)))
    (removelast (shape indices) ++ skipn k (shape params)).
Proof.
  intros Hk Hrank. unfold gather_nd. rewrite Hk. cbn [bind].
  rewrite res_dim_sizes_list_strides by (destruct (shape params); simpl in *; [lia|discriminate]).
  rewrite getitem_clamped_strides by assumption.
  rewrite length_firstn, strides_length.
  replace (Nat.min k (length (shape params))) with k by lia.
  rewrite Nat.eqb_refl. cbn [negb].
  rewrite matrix_add_tiles.
  unfold take, _to_device. rewrite !concat_map, !map_map.
  match goal with |- bind ?r _ = _ => destruct r; reflexivity end.
Qed.

Lemma index_tuples_nth (indices : ndarray Z) (k j : nat) :
  (j < size_of (removelast (shape indices)))%nat ->
  nth j (index_tuples indices k) [] = firstn k (skipn (j * k) (data indices)).
Proof.
  intros Hj. unfold index_tuples.
  rewrite (nth_indep _ []
             ((fun j => firstn k (skipn (j * k) (data indices))) 0%nat))
    by now rewrite length_map, length_seq.
  rewrite (map_nth (fun j => firstn k (skipn (j * k) (data indices)))).
  now rewrite seq_nth.
Qed.

Lemma index_tuples_length (indices : ndarray Z) (k : nat) :
  well_formed indices ->
  last_dim (shape indices) = Ok k ->
  Forall (fun t => length t = k) (index_tuples indices k).
Proof.
  intros Hwf Hk. apply last_dim_split in Hk.
  unfold well_formed in Hwf. unfold index_tuples.
  set (p := removelast (shape indices)) in *.
  rewrite Hk, size_of_app in Hwf. simpl in Hwf.
  apply Forall_map, Forall_forall.
  intros j Hj%elem_of_seq. rewrite length_firstn, length_skipn. nia.
Qed.

(** Under the side conditions, every row of positions that
    [gather_nd] reads is the window at the block's row-major offset. *)
Lemma gather_nd_blocks (params : ndarray T) (tuples : list (list Z)) (k : nat) :
  well_formed params ->
  Z.of_nat (size_of (shape params)) <= 2 ^ 31 ->
  Forall (fun t => length t = k) tuples ->
  forallb (tuple_in_range (shape params)) tuples = true ->
  map (fun t =>
         take fill (data params)
           (map astype_int32
              (map (fun i => dot t (firstn k (strides (shape params))) + i)
                 (arange (size_of (skipn k (shape params)))))))
      tuples
  = map (fun t =>
           firstn (size_of (skipn k (shape params)))
             (skipn (flat_offset (shape params) t) (data params)))
      tuples.
Proof.
  intros Hwf H32 Hlen Hrange.
  rewrite forallb_forall in Hrange. rewrite List.Forall_forall in Hlen.
  apply map_ext_in. intros t Ht.
  specialize (Hrange t Ht). specialize (Hlen t Ht). subst k.
  rewrite dot_strides by assumption.
  unfold well_formed in Hwf.
  apply take_window; [|now rewrite Hwf].
  rewrite Hwf. now apply flat_offset_bound.
Qed.
(** C2 (as amended).  For index tuples of length [k] with
    [1 <= k <= rank(params)], all in range, and a [params] of at most
    [2^31] elements (so that every flat position survives the cast to
    [int32]), [gather_nd] returns an array of shape
    [indices.shape[:-1] + params.shape[k:]], and for every position
    [idx] of the leading axes of [indices] the block [ret[idx]] is the
    full trailing slice [params[*t, ...]] at the tuple [t = indices[idx]]. *)
Theorem gather_nd_block_property
    (params : ndarray T) (indices : ndarray Z) (k : nat) :
  well_formed params ->
  well_formed indices ->
  last_dim (shape indices) = Ok k ->
  (1 <= k <= length (shape params))%nat ->
  Z.of_nat (size_of (shape params)) <= 2 ^ 31 ->
  forallb (tuple_in_range (shape params)) (index_tuples indices k) = true ->
  exists ret : ndarray T,
    gather_nd fill params indices = Ok ret /\
    shape ret = removelast (shape indices) ++ skipn k (shape params) /\
    well_formed ret /\
    forall idx : list Z,
      length idx = length (removelast (shape indices)) ->
      tuple_in_range (removelast (shape indices)) idx = true ->
      exists (t : list Z) (block : ndarray T),
        get_item indices idx = Some (mk_ndarray [k] t) /\
        get_item params t = Some block /\
        shape block = skipn k (shape params) /\
        get_item ret idx = Some block.
Proof.
  intros Hwf Hwfi Hk Hrank H32 Hrange.
  pose proof (index_tuples_length indices k Hwfi Hk) as Hlen.
  pose proof (last_dim_split _ _ Hk) as Hsplit.
  rewrite (gather_nd_unfold params indices k Hk Hrank).
  rewrite (gather_nd_blocks params _ k Hwf H32 Hlen Hrange).
  set (p := removelast (shape indices)) in *.
  set (s := shape params) in *.
  set (f := size_of (skipn k s)).
  set (blocks := map _ (index_tuples indices k)).
  assert (Hbl : Forall (fun b => length b = f) blocks).
  { subst blocks. apply Forall_map, Forall_forall. intros t Ht.
    rewrite forallb_forall in Hrange.
    apply list_elem_of_In in Ht.
    rewrite List.Forall_forall in Hlen.
    specialize (Hrange t Ht). specialize (Hlen t Ht).
    pose proof (flat_offset_bound s t Hrange) as Hb.
    rewrite Hlen in Hb. fold f in Hb.
    rewrite length_firstn, length_skipn. unfold well_formed in Hwf.
    fold s in Hwf. lia. }
  assert (Hn : length blocks = size_of p).
  { subst blocks. unfold index_tuples. fold p.
    now rewrite !length_map, length_seq. }
  assert (Hsize : length (concat blocks) = size_of (p ++ skipn k s)).
  { rewrite (concat_uniform_length _ f Hbl), Hn, size_of_app. reflexivity. }
  unfold reshape. rewrite Hsize, Nat.eqb_refl.
  eexists. split; [reflexivity|]. split; [reflexivity|].
  split; [exact Hsize|].
  intros idx Hidx Hin.
  pose proof (flat_offset_bound p idx Hin) as Hj.
  rewrite Hidx, skipn_all in Hj. simpl in Hj.
  set (j := flat_offset p idx) in *.
  assert (Hjn : (j < size_of p)%nat) by lia.
  set (t := firstn k (skipn (j * k) (data indices))).
  assert (Htin : In t (index_tuples indices k)).
  { subst t. rewrite <- (index_tuples_nth indices k j Hjn).
    apply nth_In. unfold index_tuples. fold p.
    now rewrite length_map, length_seq. }
  assert (Htlen : length t = k).
  { rewrite List.Forall_forall in Hlen. now apply Hlen. }
  assert (Htr : tuple_in_range s t = true).
  { rewrite forallb_forall in Hrange. now apply Hrange. }
  exists t, (mk_ndarray (skipn k s) (firstn f (skipn (flat_offset s t) (data params)))).
  split; [|split; [|split]].
  - rewrite get_item_flat;
      [|assumption|rewrite Hsplit; now apply tuple_in_range_app].
    rewrite Hidx.
    assert (Hoff : flat_offset (shape indices) idx = (j * k)%nat).
    { rewrite Hsplit, flat_offset_app by assumption. fold j. simpl. lia. }
    assert (Hdrop : skipn (length p) (shape indices) = [k]).
    { rewrite Hsplit, skipn_app, skipn_all, Nat.sub_diag. reflexivity. }
    rewrite Hoff, Hdrop. simpl size_of. rewrite Nat.mul_1_r. reflexivity.
  - rewrite get_item_flat by assumption. fold s. rewrite Htlen. reflexivity.
  - reflexivity.
  - rewrite get_item_flat;
      [|exact Hsize|cbn [shape]; now apply tuple_in_range_app].
    cbn [shape data].
    rewrite Hidx, skipn_app, skipn_all, Nat.sub_diag.
    cbn [app]. change (skipn 0 (skipn k s)) with (skipn k s). fold f.
    rewrite flat_offset_app by assumption. fold j. fold f.
    rewrite (concat_uniform_chunk blocks f j Hbl) by lia.
    subst blocks.
    rewrite (nth_indep _ []
               ((fun t => firstn f (skipn (flat_offset s t) (data params))) []))
      by (rewrite length_map; unfold index_tuples; fold p;
          now rewrite length_map, length_seq).
    rewrite (map_nth (fun t => firstn f (skipn (flat_offset s t) (data params)))).
    rewrite (index_tuples_nth indices k j Hjn). reflexivity.
Qed.
End GatherFacts.

(** ** The cast to [int32] *)

Lemma skipn_repeat {A} (x : A) (m n : nat) :
  skipn m (repeat x n) = repeat x (n - m).
Proof.
  revert n. induction m as [|m IH]; intros n.
  - now rewrite Nat.sub_0_r.
  - destruct n as [|n]; [reflexivity|]. cbn [repeat skipn]. apply IH.
Qed.

(** On a vector of [2^31 + 1] elements the flat position [2^31] wraps
    to [-2^31] in the cast, which [jnp.take] then counts from the end:
    position 1 is read instead of position [2^31]. *)
Lemma gather_nd_int32_wraps (n : nat) :
  Z.of_nat n = 2 ^ 31 + 1 ->
  let params := mk_ndarray [n] (0 :: 1 :: repeat 0 (n - 2)) in
  let indices := mk_ndarray [1; 1]%nat [2 ^ 31] in
  well_formed params /\
  forallb (tuple_in_range (shape params)) (index_tuples indices 1) = true /\
  get_item params [2 ^ 31] = Some (mk_ndarray [] [0]) /\
  gather_nd 0 params indices = Ok (mk_ndarray [1%nat] [1]).
Proof.
  intros Hn params indices.
  assert (Hlen : length (data params) = n).
  { subst params. cbn [data length]. rewrite repeat_length. lia. }
  split; [|split; [|split]].
  - unfold well_formed. rewrite Hlen. subst params. cbn [shape size_of fold_right].
    lia.
  - subst params indices. unfold index_tuples.
    cbn [shape data removelast size_of fold_right Nat.mul seq map Nat.add
         skipn firstn forallb tuple_in_range andb].
    destruct (Z.leb_spec 0 (2 ^ 31)) as [_|?]; [|lia].
    destruct (Z.ltb_spec (2 ^ 31) (Z.of_nat n)) as [_|?]; [|lia].
    reflexivity.
  - subst params. cbn [get_item]. unfold subarray. cbn [shape data].
    destruct (Z.leb_spec 0 (2 ^ 31)) as [_|?]; [|lia].
    destruct (Z.ltb_spec (2 ^ 31) (Z.of_nat n)) as [_|?]; [|lia].
    cbn [andb size_of fold_right].
    replace (Z.to_nat (2 ^ 31) * 1)%nat with (S (S (n - 3))) by lia.
    cbn [skipn]. rewrite skipn_repeat.
    replace (n - 2 - (n - 3))%nat with 1%nat by lia. reflexivity.
  - rewrite (gather_nd_unfold 0 params indices 1%nat);
      [|reflexivity|subst params; cbn [shape length]; lia].
    subst indices. unfold index_tuples.
    cbn [shape data removelast size_of fold_right Nat.mul seq map Nat.add
         skipn firstn app concat].
    subst params.
    cbn [shape data strides skipn firstn size_of fold_right app].
    unfold arange, dot.
    cbn [seq map combine fst snd fold_left app].
    unfold take. cbn [map]. unfold take1, reshape.
    cbn [length app size_of fold_right Nat.mul Nat.eqb].
    rewrite repeat_length.
    replace (astype_int32 (0 + 2 ^ 31 * Z.of_nat 1 + Z.of_nat 0))
      with (- 2 ^ 31) by reflexivity.
    destruct (Z.ltb_spec (- 2 ^ 31) 0) as [_|?]; [|lia].
    replace (- 2 ^ 31 + Z.of_nat (S (S (n - 2)))) with 1 by lia.
    destruct (Z.ltb_spec 1 (Z.of_nat (S (S (n - 2))))) as [_|?]; [|lia].
    reflexivity.
Qed.



(** ** The in-place emulation *)

Section InplaceFacts.

Context {T : Type} `{Scalar T}.

Lemma is_array_native (n : native (T := T)) : is_array (VNative n) = true.
Proof. destruct n as [[] a]; reflexivity. Qed.

Lemma to_native_is_array (st : store (T := T)) (val : value) (d : native) :
  to_native st val = Ok (VNative d) -> is_array val = true.
Proof.
  destruct val as [n|r|s]; simpl; intros Hv.
  - apply is_array_native.
  - reflexivity.
  - discriminate.
Qed.

(** C6. [inplace_update(x, val)] with [ensure_in_backend=False]: when
    [x] is a framework-owned wrapper and [val] an array, it rebinds the
    data slot of [x] to the native value of [val] and returns [x]; when
    [x] is a bare native array and [val] an array, it fails with the
    unsupported-operation error; when [x] is not an array, it returns
    [val] and touches nothing. *)
Theorem inplace_update_contract (st : store (T := T)) (val : value) :
  (forall (r : nat) (old d : native),
      st !! r = Some old ->
      to_native st val = Ok (VNative d) ->
      inplace_update (VIvyArray r) val false st
      = Ok (VIvyArray r, <[r := d]> st)) /\
  (forall (n d : native),
      to_native st val = Ok (VNative d) ->
      inplace_update (VNative n) val false st
      = Raise (IvyException (Text not_supported_message))) /\
  (forall x : value,
      is_array x = false ->
      inplace_update x val false st = Ok (val, st)).
Proof.
  split; [|split].
  - intros r old d Hr Hv. unfold inplace_update.
    rewrite (to_native_is_array st val d Hv).
    cbn [is_array is_ivy_array orb andb].
    unfold args_to_native. rewrite Hv. cbn [to_native]. rewrite Hr.
    reflexivity.
  - intros n d Hv. unfold inplace_update.
    rewrite (to_native_is_array st val d Hv), is_array_native.
    cbn [andb]. unfold args_to_native. rewrite Hv. reflexivity.
  - intros x Hx. unfold inplace_update. rewrite Hx. reflexivity.
Qed.

(** C7 (as amended).  With [ensure_in_backend=True] two arrays are
    always refused with the "not natively supported" error, before
    anything is read or rebound and whether [x] is a wrapper or a bare
    native array; when [x] or [val] is not an array the call takes the
    passthrough branch and returns [val]. *)
Theorem inplace_update_ensure_in_backend (st : store (T := T)) (x val : value) :
  (is_array x = true -> is_array val = true ->
   inplace_update x val true st
   = Raise (IvyException (Text not_supported_message))) /\
  (is_array x && is_array val = false ->
   inplace_update x val true st = Ok (val, st)).
Proof.
  unfold inplace_update. split.
  - intros -> ->. reflexivity.
  - intros ->. reflexivity.
Qed.

End InplaceFacts.

(** ** Failures of the engine primitives are engine errors *)

Lemma engine_only_bind {A B} (r : result A) (k : A -> result B) :
  engine_only r -> (forall a, engine_only (k a)) -> engine_only (bind r k).
Proof. destruct r as [a|[m|e]]; simpl; auto. Qed.

Lemma sequence_result_engine_only {A} (rs : list (result A)) :
  List.Forall engine_only rs -> engine_only (sequence_result rs).
Proof.
  induction 1 as [|r rs Hr _ IH]; simpl; [exact I|].
  apply engine_only_bind; [assumption|]. intros a.
  apply engine_only_bind; [assumption|]. intros xs. exact I.
Qed.

Lemma stretch_engine_only {A} (s target : list nat) (l : list A) :
  engine_only (stretch s target l).
Proof.
  revert target l. induction s as [|d s IH]; intros [|t target] l; simpl;
    try exact I.
  destruct (Nat.eqb d t).
  - apply engine_only_bind; [|intros; exact I].
    apply sequence_result_engine_only, List.Forall_forall.
    intros r Hr. apply in_map_iff in Hr as (c & <- & _). apply IH.
  - destruct (Nat.eqb d 1); [|exact I].
    apply engine_only_bind; [apply IH|intros; exact I].
Qed.

Lemma broadcast_to_engine_only {A} (a : ndarray A) (target : list nat) :
  engine_only (broadcast_to a target).
Proof.
  unfold broadcast_to. destruct (_ <? _)%nat; [exact I|].
  destruct (compatible _ _); [|exact I].
  apply engine_only_bind; [apply stretch_engine_only|intros; exact I].
Qed.

Lemma broadcast_shapes_engine_only (s1 s2 : list nat) :
  engine_only (broadcast_shapes s1 s2).
Proof.
  unfold broadcast_shapes. apply engine_only_bind; [|intros; exact I].
  generalize (rev s2) as r2. induction (rev s1) as [|a r1 IH]; intros r2.
  - exact I.
  - destruct r2 as [|b r2]; [exact I|]. simpl.
    apply engine_only_bind; [apply IH|]. intros r.
    destruct (Nat.eqb a b); [exact I|].
    destruct (Nat.eqb a 1); [exact I|].
    destruct (Nat.eqb b 1); exact I.
Qed.

Lemma elementwise_engine_only {A} (f : A -> A -> A) (a b : ndarray A) :
  engine_only (elementwise f a b).
Proof.
  unfold elementwise.
  apply engine_only_bind; [apply broadcast_shapes_engine_only|]. intros s.
  apply engine_only_bind; [apply broadcast_to_engine_only|]. intros a'.
  apply engine_only_bind; [apply broadcast_to_engine_only|]. intros b'.
  exact I.
Qed.

Section IncrementFacts.

Context {T : Type} `{Scalar T}.

Lemma to_native_engine_only (st : store (T := T)) (x : value) :
  engine_only (to_native st x).
Proof. destruct x as [n|r|s]; simpl; try exact I. destruct (st !! r); exact I. Qed.

Lemma arith_engine_only (f : T -> T -> T) (a b : value (T := T)) :
  engine_only (arith f a b).
Proof.
  destruct a as [x| |], b as [y| |]; simpl; try exact I.
  apply engine_only_bind; [apply elementwise_engine_only|intros; exact I].
Qed.

Lemma inplace_binop_engine_only (x val : value) (st : store (T := T)) :
  engine_only (inplace_increment x val st) /\
  engine_only (inplace_decrement x val st).
Proof.
  unfold inplace_increment, inplace_decrement, args_to_native.
  split.
  all: apply engine_only_bind;
    [apply engine_only_bind; [apply to_native_engine_only|]; intros a;
     apply engine_only_bind; [apply to_native_engine_only|]; intros b; exact I|].
  all: intros [xn vn]; destruct x as [n|r|s].
  all: repeat (apply engine_only_bind;
               [first [apply to_native_engine_only|apply arith_engine_only]|];
               intros ?).
  all: exact I.
Qed.

End IncrementFacts.

Section IncrementContract.

Context {T : Type} `{Scalar T}.

(** C8 (as amended).  [inplace_increment] and [inplace_decrement] never
    raise a framework exception, in particular never the
    unsupported-operation error of [inplace_update]; they fail only
    where the engine's own elementwise operation does.  Where that
    operation yields [s]: on a wrapper with data [d] the data slot is
    rebound to [s = d +/- val] and the same wrapper is returned; on a
    bare native array a new wrapper holding [s = x +/- val] is made and
    returned. *)
Theorem inplace_increment_decrement_contract
    (st : store (T := T)) (val : value) (v : native) :
  to_native st val = Ok (VNative v) ->
  (forall (r : nat) (d s : native),
      st !! r = Some d ->
      (arith add (VNative d) (VNative v) = Ok s ->
       inplace_increment (VIvyArray r) val st = Ok (VIvyArray r, <[r := s]> st)) /\
      (arith sub (VNative d) (VNative v) = Ok s ->
       inplace_decrement (VIvyArray r) val st = Ok (VIvyArray r, <[r := s]> st))) /\
  (forall (n s : native),
      exists r : nat,
        st !! r = None /\
        (arith add (VNative n) (VNative v) = Ok s ->
         inplace_increment (VNative n) val st = Ok (VIvyArray r, <[r := s]> st)) /\
        (arith sub (VNative n) (VNative v) = Ok s ->
         inplace_decrement (VNative n) val st = Ok (VIvyArray r, <[r := s]> st))) /\
  (forall (x : value) (m : message),
      inplace_increment x val st <> Raise (IvyException m) /\
      inplace_decrement x val st <> Raise (IvyException m)).
Proof.
  intros Hv. split; [|split].
  - intros r d s Hr. unfold inplace_increment, inplace_decrement, args_to_native.
    rewrite Hv. cbn [to_native]. rewrite Hr. cbn [bind].
    split; intros ->; reflexivity.
  - intros n s. exists (fresh (dom st)). split.
    + unfold store in *. apply not_elem_of_dom_1, is_fresh.
    + unfold inplace_increment, inplace_decrement, args_to_native.
      rewrite Hv. cbn [to_native bind].
      split; intros ->; reflexivity.
  - intros x m.
    destruct (inplace_binop_engine_only x val st) as [Hi Hd].
    split; intros E; [rewrite E in Hi|rewrite E in Hd]; assumption.
Qed.

End IncrementContract.

(** ** The scatter functions on binary64 arrays *)

(** C4.  [scatter_flat([0,2], [5.0,3.0], size=4, reduction="min")]
    without an output buffer returns [[5.0, 0.0, 3.0, 0.0]]: the fresh
    target is filled with [1e12], the elementwise minimum is taken at
    positions 0 and 2, and the positions still holding [1e12] are
    rewritten to [0.0].  With [reduction="max"] the fill is [-1e12]. *)
Theorem scatter_flat_min_max_sentinel :
  let indices := mk_ndarray [2%nat] [0; 2] in
  let updates := mk_ndarray [2%nat] [5.0; 3.0]%float in
  let ret := mk_ndarray [4%nat] [5.0; 0.0; 3.0; 0.0]%float in
  scatter_flat indices updates (Some 4%nat) "min" None ∅
  = Ok (VNative (mk_native DeviceArray ret), ∅) /\
  ones_times [4%nat] big
  = mk_ndarray [4%nat] [1e12; 1e12; 1e12; 1e12]%float /\
  at_min (ones_times [4%nat] big) (flat_indexer indices) updates
  = Ok (mk_ndarray [4%nat] [5.0; 1e12; 3.0; 1e12]%float) /\
  where_eq_zero big (mk_ndarray [4%nat] [5.0; 1e12; 3.0; 1e12]%float) = ret /\
  scatter_flat indices updates (Some 4%nat) "max" None ∅
  = Ok (VNative (mk_native DeviceArray ret), ∅) /\
  ones_times [4%nat] (opp big)
  = mk_ndarray [4%nat] [-1e12; -1e12; -1e12; -1e12]%float /\
  at_max (ones_times [4%nat] (opp big)) (flat_indexer indices) updates
  = Ok (mk_ndarray [4%nat] [5.0; -1e12; 3.0; -1e12]%float) /\
  where_eq_zero (opp big) (mk_ndarray [4%nat] [5.0; -1e12; 3.0; -1e12]%float)
  = ret.
Proof. repeat split; vm_compute; reflexivity. Qed.

(** C1.  A wrapper holding [[0.0, 0.0]] is passed as [out]:
    [scatter_flat] returns a new engine array and leaves the data slot
    of the wrapper as it was, whereas [scatter_nd] on the same
    arguments rebinds the slot and returns the wrapper. *)
Theorem scatter_flat_leaves_out_unbound :
  let buffer := mk_native DeviceArray (mk_ndarray [2%nat] [0.0; 0.0]%float) in
  let updated := mk_native DeviceArray (mk_ndarray [2%nat] [1.0; 0.0]%float) in
  let st : store := {[ 7%nat := buffer ]} in
  let updates := mk_ndarray [1%nat] [1.0]%float in
  scatter_flat (mk_ndarray [1%nat] [0]) updates None "sum"
    (Some (VIvyArray 7)) st
  = Ok (VNative updated, st) /\
  st !! 7%nat = Some buffer /\
  scatter_nd (IArray (mk_ndarray [1%nat; 1%nat] [0])) updates None "sum"
    (Some (VIvyArray 7)) st
  = Ok (VIvyArray 7, <[7%nat := updated]> st).
Proof. repeat split; vm_compute; reflexivity. Qed.

(** ** Indexed updates leave the rest of the target alone *)

Lemma zip_with_length {A B C} (f : A -> B -> C) (l1 : list A) (l2 : list B) :
  length (zip_with f l1 l2) = Nat.min (length l1) (length l2).
Proof. unfold zip_with. now rewrite length_map, length_combine. Qed.

Section IndexUpdateFacts.

Context {T : Type} `{Scalar T}.

Lemma write_block_length (op : T -> T -> T) (l : list T) (off : nat)
    (blk : list T) :
  length (write_block op l off blk) = length l.
Proof.
  unfold write_block.
  rewrite !length_app, zip_with_length, !length_firstn, !length_skipn. lia.
Qed.

Lemma write_block_nth_outside (op : T -> T -> T) (l : list T) (off : nat)
    (blk : list T) (p : nat) (d : T) :
  (p < off \/ off + length blk <= p)%nat ->
  nth p (write_block op l off blk) d = nth p l d.
Proof.
  intros Hp. unfold write_block.
  destruct (Nat.le_gt_cases (length l) off) as [Hle|Hlt].
  - rewrite firstn_all2 by lia. rewrite (skipn_all2 l (n := off)) by lia.
    rewrite (skipn_all2 l (n := (off + length blk)%nat)) by lia.
    rewrite firstn_nil. cbn. now rewrite !app_nil_r.
  - destruct Hp as [Hp|Hp].
    + rewrite app_nth1 by (rewrite length_firstn; lia).
      rewrite nth_firstn.
      destruct (Nat.ltb_spec p off); [reflexivity|lia].
    + rewrite app_nth2 by (rewrite length_firstn; lia).
      rewrite length_firstn. replace (Nat.min off (length l)) with off by lia.
      destruct (Nat.le_gt_cases (off + length blk) (length l)) as [Hfit|Hover].
      * rewrite app_nth2
          by (rewrite zip_with_length, length_firstn, length_skipn; lia).
        rewrite zip_with_length, length_firstn, length_skipn.
        rewrite nth_skipn. f_equal. lia.
      * rewrite (skipn_all2 l (n := (off + length blk)%nat)) by lia.
        rewrite app_nil_r.
        rewrite !nth_overflow; [reflexivity|lia|].
        rewrite zip_with_length, length_firstn, length_skipn. lia.
Qed.

Lemma chunks_length_le {A} (sz n : nat) (l : list A) :
  List.Forall (fun b => (length b <= sz)%nat) (chunks sz n l).
Proof.
  unfold chunks. apply List.Forall_forall. intros b Hb.
  apply in_map_iff in Hb as (j & <- & _). rewrite length_firstn. lia.
Qed.

Lemma scatter_fold_nth_outside (op : T -> T -> T) (s : list nat) (k : nat)
    (tbs : list (list Z * list T)) (l : list T) (p : nat) (d : T) :
  List.Forall (fun tb => (length (snd tb) <= size_of (skipn k s))%nat) tbs ->
  (forall tb, In tb tbs -> ~ addressed s k (fst tb) p) ->
  nth p (fold_left (scatter_step op s) tbs l) d = nth p l d.
Proof.
  intros Hlen. revert l.
  induction Hlen as [|tb tbs Htb _ IH]; intros l Hun; [reflexivity|].
  cbn [fold_left]. rewrite IH by (intros; apply Hun; now right).
  unfold scatter_step.
  destruct (tuple_offset s (fst tb)) as [o|] eqn:Ho; [|reflexivity].
  apply write_block_nth_outside.
  destruct (Nat.lt_ge_cases p o) as [?|Hge]; [now left|right].
  destruct (Nat.le_gt_cases (o + length (snd tb)) p) as [?|Hlt]; [assumption|].
  exfalso. apply (Hun tb (or_introl eq_refl)). exists o. split; [assumption|lia].
Qed.

(** An indexed update keeps the shape of the target, and every
    position that no index tuple addresses keeps its value. *)
Lemma index_update_untouched (op : T -> T -> T) (target : ndarray T)
    (ix : indexer) (updates ret : ndarray T) :
  index_update op target ix updates = Ok ret ->
  shape ret = shape target /\
  length (data ret) = length (data target) /\
  forall (p : nat) (d : T),
    (forall t, In t (index_tuples_of ix) ->
               ~ addressed (shape target) (num_axes ix) t p) ->
    nth p (data ret) d = nth p (data target) d.
Proof.
  unfold index_update.
  destruct (_ <? _)%nat; [discriminate|].
  destruct (is_empty_shape _); [intros [= <-]; auto|].
  destruct (broadcast_to updates _) as [u|e]; [|discriminate].
  cbn [bind]. intros [= <-]. cbn [shape data]. split; [reflexivity|]. split.
  - generalize (combine (index_tuples_of ix)
       (chunks (size_of (skipn (num_axes ix) (shape target)))
          (length (index_tuples_of ix)) (data u))) as tbs.
    intros tbs. generalize (data target) as l.
    induction tbs as [|tb tbs IH]; intros l; [reflexivity|].
    cbn [fold_left]. rewrite IH. unfold scatter_step.
    destruct (tuple_offset _ _); [apply write_block_length|reflexivity].
  - intros p d Hun.
    apply scatter_fold_nth_outside with (k := num_axes ix).
    + apply List.Forall_forall. intros [t b] Hin. cbn [snd].
      apply in_combine_r in Hin.
      pose proof (chunks_length_le
                    (size_of (skipn (num_axes ix) (shape target)))
                    (length (index_tuples_of ix)) (data u)) as Hc.
      rewrite List.Forall_forall in Hc. now apply Hc.
    + intros [t b] Hin. cbn [fst]. apply Hun. now apply in_combine_l in Hin.
Qed.

End IndexUpdateFacts.

(** ** The scatter functions *)

Section ScatterFacts.

Context {T : Type} `{Scalar T}.

Lemma check_size_spec (n : nat) (o : value) (t : native) (st : store (T := T)) :
  as_native st o = Ok t ->
  (shape (arr t) = [n] -> check_size (Some n) (Some o) st = Ok tt) /\
  (shape (arr t) <> [n] ->
   exists x1 x2 : operand,
     check_size (Some n) (Some o) st = Raise (IvyException (MustBeEqual x1 x2))).
Proof.
  intros Ht. unfold check_size. rewrite Ht. cbn [bind]. split.
  - intros ->. cbn. now rewrite Nat.eqb_refl.
  - intros Hne. unfold check_equal.
    destruct (shape (arr t)) as [|d [|d' s]] eqn:Hs; cbn.
    + eauto.
    + destruct (Nat.eqb_spec d n) as [->|Hd]; [congruence|]. cbn. eauto.
    + eauto.
Qed.

Lemma target_shape_spec (s : list nat) (o : value) (t : native)
    (st : store (T := T)) :
  as_native st o = Ok t ->
  (shape (arr t) = s -> target_shape (Some s) (Some o) st = Ok s) /\
  (shape (arr t) <> s ->
   target_shape (Some s) (Some o) st
   = Raise (IvyException (MustBeEqual (OShape (shape (arr t))) (OShape s)))).
Proof.
  intros Ht. unfold target_shape. rewrite Ht. cbn [bind]. unfold check_equal.
  split; intros Hs.
  - now rewrite bool_decide_eq_true_2.
  - now rewrite bool_decide_eq_false_2.
Qed.

Lemma invalid_reduction_eqb (reduction : string) :
  ~ In reduction ["sum"; "replace"; "min"; "max"]%string ->
  String.eqb reduction "sum" = false /\
  String.eqb reduction "replace" = false /\
  String.eqb reduction "min" = false /\
  String.eqb reduction "max" = false.
Proof.
  intros Hn. repeat split; apply String.eqb_neq; intros ->; apply Hn; simpl; auto.
Qed.

(** C9 (as amended).  With both [size] and an output buffer,
    [scatter_flat] fails with the assertion-style error of
    [check_equal] unless the buffer has shape [(size,)], whatever the
    reduction, indices and updates are; when they agree the call is the
    one without [size].  With both [shape] and an output buffer,
    [scatter_nd] never returns a result unless the shapes are equal,
    and once its preprocessing of [indices] and [updates] has gone
    through the failure is the assertion-style error, again before the
    reduction is looked at. *)
Theorem shape_mismatch_rejected
    (reduction : string) (o : value) (t : native) (st : store (T := T)) :
  as_native st o = Ok t ->
  (forall (indices : ndarray Z) (updates : ndarray T) (n : nat),
      (shape (arr t) <> [n] ->
       exists x1 x2 : operand,
         scatter_flat indices updates (Some n) reduction (Some o) st
         = Raise (IvyException (MustBeEqual x1 x2))) /\
      (shape (arr t) = [n] ->
       scatter_flat indices updates (Some n) reduction (Some o) st
       = scatter_flat indices updates None reduction (Some o) st)) /\
  (forall (indices : index_arg) (updates : ndarray T) (s : list nat),
      shape (arr t) <> s ->
      (exists e : exn,
          scatter_nd indices updates (Some s) reduction (Some o) st = Raise e) /\
      (forall ops : indexer * ndarray T,
          scatter_nd_operands indices updates (Some s) (Some o) st = Ok ops ->
          scatter_nd indices updates (Some s) reduction (Some o) st
          = Raise (IvyException
                     (MustBeEqual (OShape (shape (arr t))) (OShape s))))).
Proof.
  intros Ht. split.
  - intros indices updates n.
    destruct (check_size_spec n o t st Ht) as [Hok Hbad]. split.
    + intros Hne. destruct (Hbad Hne) as (x1 & x2 & E).
      exists x1, x2. unfold scatter_flat. rewrite E. reflexivity.
    + intros Heq. unfold scatter_flat. rewrite (Hok Heq). reflexivity.
  - intros indices updates s Hne.
    destruct (target_shape_spec s o t st Ht) as [_ Hbad].
    specialize (Hbad Hne).
    assert (Hops : forall ops,
               scatter_nd_operands indices updates (Some s) (Some o) st = Ok ops ->
               scatter_nd indices updates (Some s) reduction (Some o) st
               = Raise (IvyException
                          (MustBeEqual (OShape (shape (arr t))) (OShape s)))).
    { intros [ix u] E. unfold scatter_nd. rewrite E. cbn [bind].
      rewrite Hbad. reflexivity. }
    split; [|exact Hops].
    destruct (scatter_nd_operands indices updates (Some s) (Some o) st)
      as [ops|e] eqn:E.
    + eexists. now apply (Hops ops).
    + exists e. unfold scatter_nd. rewrite E. reflexivity.
Qed.

(** C5 (as amended).  A reduction other than "sum", "replace", "min"
    and "max" never yields a result.  [scatter_flat] rejects it with
    the error that names it as soon as the size check has passed, in
    particular for all indices and updates when no buffer is given;
    [scatter_nd] does so once its preprocessing and its shape check
    have passed. *)
Theorem invalid_reduction_rejected (reduction : string) :
  ~ In reduction ["sum"; "replace"; "min"; "max"]%string ->
  (forall (indices : ndarray Z) (updates : ndarray T) (size : option nat)
          (out : option value) (st : store (T := T)),
      (exists e : exn,
          scatter_flat indices updates size reduction out st = Raise e) /\
      (check_size size out st = Ok tt ->
       scatter_flat indices updates size reduction out st
       = Raise (IvyException (Text (reduction_message reduction)))) /\
      scatter_flat indices updates size reduction None st
      = Raise (IvyException (Text (reduction_message reduction)))) /\
  (forall (indices : index_arg) (updates : ndarray T)
          (shp : option (list nat)) (out : option value) (st : store (T := T)),
      (exists e : exn,
          scatter_nd indices updates shp reduction out st = Raise e) /\
      (forall (ops : indexer * ndarray T) (s : list nat),
          scatter_nd_operands indices updates shp out st = Ok ops ->
          target_shape shp out st = Ok s ->
          scatter_nd indices updates shp reduction out st
          = Raise (IvyException (Text (reduction_message reduction))))) /\
  (exists rest : string,
      reduction_message reduction
      = ("reduction is " ++ reduction ++ rest)%string).
Proof.
  intros Hbad.
  destruct (invalid_reduction_eqb reduction Hbad) as (E1 & E2 & E3 & E4).
  split; [|split].
  - intros indices updates size out st.
    assert (Hgo : check_size size out st = Ok tt ->
                  scatter_flat indices updates size reduction out st
                  = Raise (IvyException (Text (reduction_message reduction)))).
    { intros E. unfold scatter_flat. rewrite E, E1, E2, E3, E4. reflexivity. }
    split; [|split; [exact Hgo|]].
    + destruct (check_size size out st) as [[]|e] eqn:E.
      * eexists. now apply Hgo.
      * exists e. unfold scatter_flat. rewrite E. reflexivity.
    + unfold scatter_flat. rewrite E1, E2, E3, E4.
      destruct size; reflexivity.
  - intros indices updates shp out st.
    assert (Hgo : forall ops s,
               scatter_nd_operands indices updates shp out st = Ok ops ->
               target_shape shp out st = Ok s ->
               scatter_nd indices updates shp reduction out st
               = Raise (IvyException (Text (reduction_message reduction)))).
    { intros [ix u] s Eo Es. unfold scatter_nd.
      rewrite Eo. cbn [bind]. rewrite Es, E1, E2, E3, E4. reflexivity. }
    split; [|exact Hgo].
    destruct (scatter_nd_operands indices updates shp out st) as [ops|e] eqn:Eo.
    + destruct (target_shape shp out st) as [s|e] eqn:Es.
      * eexists. now apply (Hgo ops s).
      * exists e. destruct ops as [ix u]. unfold scatter_nd.
        rewrite Eo. cbn [bind]. rewrite Es. reflexivity.
    + exists e. unfold scatter_nd. rewrite Eo. reflexivity.
  - eexists. unfold reduction_message. reflexivity.
Qed.

End ScatterFacts.

(** ** Broadcasting *)

Lemma sequence_result_Forall2 {A B} (g : A -> result B) (cs : list A)
    (parts : list B) :
  sequence_result (map g cs) = Ok parts ->
  List.Forall2 (fun c p => g c = Ok p) cs parts.
Proof.
  revert parts. induction cs as [|c cs IH]; intros parts; simpl.
  - intros [= <-]. constructor.
  - destruct (g c) as [p|e] eqn:Ec; [|discriminate]. cbn [bind].
    destruct (sequence_result (map g cs)) as [ps|e]; [|discriminate].
    cbn [bind]. intros [= <-]. constructor; [exact Ec|]. now apply IH.
Qed.

Lemma sequence_result_defined {A B} (g : A -> result B) (cs : list A) :
  List.Forall (fun c => exists p, g c = Ok p) cs ->
  exists ps, sequence_result (map g cs) = Ok ps.
Proof.
  induction 1 as [|c cs [p Hp] _ [ps IH]]; [now exists []|].
  exists (p :: ps). cbn [map sequence_result]. rewrite Hp. cbn [bind].
  now rewrite IH.
Qed.

Lemma sequence_result_nth {A B} (g : A -> result B) (cs : list A)
    (parts : list B) (n : nat) (dc : A) (dp : B) :
  sequence_result (map g cs) = Ok parts -> (n < length cs)%nat ->
  g (nth n cs dc) = Ok (nth n parts dp).
Proof.
  intros E. apply sequence_result_Forall2 in E. revert n.
  induction E as [|c p cs ps Hcp _ IH]; intros n Hn; simpl in Hn; [lia|].
  destruct n as [|n]; [exact Hcp|]. cbn [nth]. apply IH. lia.
Qed.

Lemma chunks_nth {A} (sz n j : nat) (l : list A) :
  (j < n)%nat -> nth j (chunks sz n l) [] = firstn sz (skipn (j * sz) l).
Proof.
  intros Hj. unfold chunks.
  rewrite (nth_indep _ [] (firstn sz (skipn (0 * sz) l)))
    by (now rewrite length_map, length_seq).
  rewrite (map_nth (fun j => firstn sz (skipn (j * sz) l))).
  now rewrite seq_nth.
Qed.

Lemma chunks_uniform {A} (sz n : nat) (l : list A) :
  length l = (n * sz)%nat ->
  List.Forall (fun c => length c = sz) (chunks sz n l).
Proof.
  intros Hl. apply List.Forall_forall. intros c Hc. unfold chunks in Hc.
  apply in_map_iff in Hc as (j & <- & Hj). apply in_seq in Hj.
  rewrite length_firstn, length_skipn, Hl. nia.
Qed.

Lemma size_of_repeat_one (k : nat) (s : list nat) :
  size_of (repeat 1%nat k ++ s) = size_of s.
Proof.
  induction k as [|k IH]; [reflexivity|].
  cbn [repeat app]. change (size_of (1%nat :: ?x)) with (1 * size_of x)%nat.
  change (size_of (1%nat :: repeat 1%nat k ++ s))
    with (1 * size_of (repeat 1%nat k ++ s))%nat.
  lia.
Qed.

Lemma stretch_length {A} (s target : list nat) (l r : list A) :
  length l = size_of s -> stretch s target l = Ok r ->
  length r = size_of target.
Proof.
  revert target l r. induction s as [|d s IH]; intros [|t target] l r Hl;
    simpl; try discriminate.
  - now intros [= <-].
  - change (size_of (d :: s)) with (d * size_of s)%nat in Hl.
    change (size_of (t :: target)) with (t * size_of target)%nat.
    destruct (Nat.eqb d t) eqn:Edt.
    + apply Nat.eqb_eq in Edt. subst t.
      destruct (sequence_result _) as [parts|e] eqn:Es; [|discriminate].
      cbn [bind]. intros [= <-].
      apply sequence_result_Forall2 in Es.
      assert (Hn : length parts = d).
      { apply Forall2_length in Es. rewrite <- Es. unfold chunks.
        now rewrite length_map, length_seq. }
      rewrite (concat_uniform_length parts (size_of target)); [now rewrite Hn|].
      assert (Hc : List.Forall (fun c => length c = size_of s)
                     (chunks (size_of s) d l)).
      { apply List.Forall_forall. intros c Hc. unfold chunks in Hc.
        apply in_map_iff in Hc as (j & <- & Hj). apply in_seq in Hj.
        rewrite length_firstn, length_skipn, Hl. nia. }
      clear Hn. revert Hc.
      induction Es as [|c p cs ps Hcp _ IHF]; intros Hc; [constructor|].
      inversion Hc; subst. constructor; [|now apply IHF].
      eapply IH; eassumption.
    + destruct (Nat.eqb d 1) eqn:Ed1; [|discriminate].
      apply Nat.eqb_eq in Ed1. subst d.
      destruct (stretch s target l) as [part|e] eqn:Es; [|discriminate].
      cbn [bind]. intros [= <-].
      rewrite (concat_uniform_length _ (size_of target)).
      * now rewrite repeat_length.
      * apply List.Forall_forall. intros b Hb. apply repeat_spec in Hb as ->.
        eapply IH; [|eassumption]. lia.
Qed.

Lemma stretch_parts_length {A} (s target : list nat) (cs parts : list (list A)) :
  sequence_result (map (stretch s target) cs) = Ok parts ->
  List.Forall (fun c => length c = size_of s) cs ->
  List.Forall (fun p => length p = size_of target) parts.
Proof.
  intros E. apply sequence_result_Forall2 in E.
  induction E as [|c p cs ps Hcp _ IHF]; intros Hc; [constructor|].
  inversion Hc; subst. constructor; [|now apply IHF].
  eapply stretch_length; eassumption.
Qed.

(** Stretching is defined on compatible shapes. *)
Lemma stretch_defined {A} (s target : list nat) (l : list A) :
  compatible s target = true -> exists r, stretch s target l = Ok r.
Proof.
  revert target l. induction s as [|d s IH]; intros [|t target] l Hc;
    try discriminate.
  - now exists l.
  - cbn [compatible] in Hc. apply andb_prop in Hc as [Hd Hc]. cbn [stretch].
    destruct (Nat.eqb d t).
    + destruct (sequence_result_defined (stretch s target)
                  (chunks (size_of s) d l)) as [ps Hps].
      { apply List.Forall_forall. intros c _. now apply IH. }
      rewrite Hps. now eexists.
    + cbn [orb] in Hd. rewrite Hd. destruct (IH target l Hc) as [r Hr].
      rewrite Hr. now eexists.
Qed.

(** Every position of stretched data reads the source at the clamped
    coordinates. *)
Lemma stretch_get_item {A} (s target : list nat) (l r : list A)
    (idx : list Z) :
  length l = size_of s -> stretch s target l = Ok r ->
  length idx = length target -> tuple_in_range target idx = true ->
  get_item (mk_ndarray target r) idx
  = get_item (mk_ndarray s l) (source_index s idx).
Proof.
  revert target l r idx.
  induction s as [|d s IH]; intros [|t target] l r idx Hl E Hi Hr;
    cbn [stretch] in E; try discriminate.
  - injection E as <-. destruct idx; [reflexivity|discriminate].
  - destruct idx as [|i idx]; [discriminate|]. injection Hi as Hi.
    cbn [tuple_in_range] in Hr. apply andb_prop in Hr as [Hb Hr].
    change (size_of (d :: s)) with (d * size_of s)%nat in Hl.
    cbn [source_index get_item]. unfold subarray. cbn [shape data].
    rewrite Hb.
    apply andb_prop in Hb as [Hi0 Hit].
    apply Z.leb_le in Hi0. apply Z.ltb_lt in Hit.
    destruct (Nat.eqb d t) eqn:Edt.
    + apply Nat.eqb_eq in Edt. subst t.
      destruct (sequence_result _) as [parts|e] eqn:Es; [|discriminate].
      cbn [bind] in E. injection E as <-.
      assert (Hsrc : (if Nat.eqb d 1 then 0 else i) = i).
      { destruct (Nat.eqb d 1) eqn:E1; [|reflexivity].
        apply Nat.eqb_eq in E1. lia. }
      rewrite Hsrc.
      replace ((0 <=? i) && (i <? Z.of_nat d)) with true
        by (symmetry; apply andb_true_intro; split;
            [now apply Z.leb_le|now apply Z.ltb_lt]).
      pose proof (chunks_uniform (size_of s) d l Hl) as Hchunks.
      assert (Hn : (Z.to_nat i < d)%nat) by lia.
      pose proof (sequence_result_nth _ _ _ (Z.to_nat i) [] [] Es) as Hpart.
      unfold chunks in Hpart at 1. rewrite length_map, length_seq in Hpart.
      specialize (Hpart Hn). rewrite chunks_nth in Hpart by exact Hn.
      assert (Hparts : List.Forall (fun p => length p = size_of target) parts)
        by (eapply stretch_parts_length; eassumption).
      assert (Hlen : length parts = d).
      { pose proof (sequence_result_Forall2 _ _ _ Es) as HF.
        apply Forall2_length in HF. rewrite <- HF. unfold chunks.
        now rewrite length_map, length_seq. }
      rewrite (concat_uniform_chunk parts (size_of target) (Z.to_nat i) Hparts)
        by lia.
      apply IH; try assumption.
      rewrite length_firstn, length_skipn, Hl. nia.
    + destruct (Nat.eqb d 1) eqn:Ed1; [|discriminate].
      apply Nat.eqb_eq in Ed1. subst d.
      destruct (stretch s target l) as [part|e] eqn:Es; [|discriminate].
      cbn [bind] in E. injection E as <-.
      change ((0 <=? 0) && (0 <? Z.of_nat 1)) with true.
      change (Z.to_nat 0) with 0%nat. cbn [Nat.mul]. rewrite skipn_O.
      assert (Hls : length l = size_of s) by lia.
      rewrite <- Hls at 1. rewrite firstn_all.
      assert (Hpart : length part = size_of target)
        by (eapply stretch_length; eassumption).
      rewrite (concat_uniform_chunk (repeat part t) (size_of target)
                 (Z.to_nat i)).
      * rewrite (nth_indep _ [] part) by (rewrite repeat_length; lia).
        rewrite nth_repeat. now apply IH.
      * apply List.Forall_forall. intros b Hb'.
        now apply repeat_spec in Hb' as ->.
      * rewrite repeat_length. lia.
Qed.

Lemma source_index_leading_ones (k : nat) (s : list nat) (idx : list Z) :
  (k <= length idx)%nat ->
  source_index (repeat 1%nat k ++ s) idx
  = repeat 0 k ++ source_index s (skipn k idx).
Proof.
  revert idx. induction k as [|k IH]; intros idx Hk; [reflexivity|].
  destruct idx as [|i idx]; [simpl in Hk; lia|].
  cbn [repeat app source_index skipn]. change (Nat.eqb 1 1) with true.
  f_equal. apply IH. simpl in Hk. lia.
Qed.

Lemma get_item_leading_ones {A} (k : nat) (s : list nat) (l : list A)
    (idx : list Z) :
  length l = size_of s ->
  get_item (mk_ndarray (repeat 1%nat k ++ s) l) (repeat 0 k ++ idx)
  = get_item (mk_ndarray s l) idx.
Proof.
  intros Hl. induction k as [|k IH]; [reflexivity|].
  cbn [repeat app get_item]. unfold subarray. cbn [shape data].
  change ((0 <=? 0) && (0 <? Z.of_nat 1)) with true.
  change (Z.to_nat 0) with 0%nat. cbn [Nat.mul]. rewrite skipn_O.
  rewrite size_of_repeat_one, <- Hl, firstn_all. exact IH.
Qed.

Lemma broadcast_to_well_formed {A} (a r : ndarray A) (target : list nat) :
  well_formed a -> broadcast_to a target = Ok r ->
  shape r = target /\ well_formed r.
Proof.
  intros Hwf. unfold broadcast_to. destruct (_ <? _)%nat; [discriminate|].
  destruct (compatible _ _); [|discriminate].
  destruct (stretch _ target (data a)) as [l|e] eqn:Es; [|discriminate].
  cbn [bind]. intros [= <-]. split; [reflexivity|].
  unfold well_formed. cbn [data shape].
  eapply stretch_length; [|exact Es]. now rewrite size_of_repeat_one.
Qed.

(** What [broadcast_to] returns is the broadcast of its operand. *)
Lemma broadcast_to_spec {A} (a r : ndarray A) (target : list nat) :
  well_formed a -> broadcast_to a target = Ok r ->
  is_broadcast_of a target r.
Proof.
  intros Hwf E.
  destruct (broadcast_to_well_formed a r target Hwf E) as (Hs & Hr).
  split; [exact Hs|]. split; [exact Hr|].
  intros idx Hi Hin. unfold broadcast_to in E.
  destruct (Nat.ltb_spec (length target) (length (shape a))) as [|Hle];
    [discriminate|].
  destruct (compatible _ _); [|discriminate].
  destruct (stretch _ target (data a)) as [l|e] eqn:Es; [|discriminate].
  cbn [bind] in E. injection E as <-.
  assert (Hl : length (data a)
               = size_of (repeat 1%nat (length target - length (shape a))
                          ++ shape a))
    by (now rewrite size_of_repeat_one).
  rewrite (stretch_get_item _ _ _ _ idx Hl Es Hi Hin).
  rewrite source_index_leading_ones by lia.
  rewrite get_item_leading_ones by exact Hwf.
  unfold broadcast_index. rewrite Hi. now destruct a.
Qed.

(** [broadcast_to] returns exactly on broadcastable shapes. *)
Lemma broadcast_to_defined {A} (a : ndarray A) (target : list nat) :
  broadcastable (shape a) target = true <->
  exists r, broadcast_to a target = Ok r.
Proof.
  unfold broadcastable, broadcast_to.
  destruct (Nat.ltb_spec (length target) (length (shape a))) as [Hlt|Hle].
  - split; [|intros [r Hr]; discriminate].
    intros Hb. apply andb_prop in Hb as [Hb _]. apply Nat.leb_le in Hb. lia.
  - apply Nat.leb_le in Hle. rewrite Hle. cbn [andb].
    destruct (compatible _ target) eqn:Hc.
    + split; [intros _|reflexivity].
      destruct (stretch_defined _ target (data a) Hc) as [l Hl].
      rewrite Hl. now eexists.
    + split; [discriminate|intros [r Hr]; discriminate].
Qed.

Section ScatterBufferFacts.

Context {T : Type} `{Scalar T}.

(** C10.  With an output buffer, "min" and "max" neither pre-fill with
    the sentinel nor rewrite sentinel values afterwards: the result is
    the indexed minimum (maximum) taken on the contents of the buffer
    itself, which [scatter_flat] returns and [scatter_nd] hands to
    [inplace_update]; and in such an indexed update every position
    that no index addresses keeps the value the buffer had, whatever
    that value is. *)
Theorem min_max_into_given_buffer
    (o : value) (t : native) (st : store (T := T)) :
  as_native st o = Ok t ->
  (forall (indices : ndarray Z) (updates : ndarray T) (size : option nat),
      check_size size (Some o) st = Ok tt ->
      scatter_flat indices updates size "min" (Some o) st
      = (let* a := at_min (arr t) (flat_indexer indices) updates in
         Ok (VNative (mk_native (scatter_class t) a), st)) /\
      scatter_flat indices updates size "max" (Some o) st
      = (let* a := at_max (arr t) (flat_indexer indices) updates in
         Ok (VNative (mk_native (scatter_class t) a), st))) /\
  (forall (indices : index_arg) (updates : ndarray T)
          (shp : option (list nat)) (ix : indexer) (u : ndarray T)
          (s : list nat),
      scatter_nd_operands indices updates shp (Some o) st = Ok (ix, u) ->
      target_shape shp (Some o) st = Ok s ->
      scatter_nd indices updates shp "min" (Some o) st
      = (let* a := at_min (arr t) ix u in
         inplace_update o (VNative (mk_native (scatter_class t) a)) false st) /\
      scatter_nd indices updates shp "max" (Some o) st
      = (let* a := at_max (arr t) ix u in
         inplace_update o (VNative (mk_native (scatter_class t) a)) false st)) /\
  (forall (ix : indexer) (u ret : ndarray T),
      at_min (arr t) ix u = Ok ret \/ at_max (arr t) ix u = Ok ret ->
      shape ret = shape (arr t) /\
      forall (p : nat) (d : T),
        (forall tu, In tu (index_tuples_of ix) ->
                    ~ addressed (shape (arr t)) (num_axes ix) tu p) ->
        nth p (data ret) d = nth p (data (arr t)) d).
Proof.
  intros Ht. split; [|split].
  - intros indices updates size Hc. unfold scatter_flat. rewrite Hc.
    cbn [bind initial_target exists_ negb String.eqb Ascii.eqb Bool.eqb].
    rewrite Ht. cbn [bind].
    split.
    + destruct (at_min _ _ _); reflexivity.
    + destruct (at_max _ _ _); reflexivity.
  - intros indices updates shp ix u s Ho Hs. unfold scatter_nd.
    rewrite Ho. cbn [bind]. rewrite Hs.
    cbn [bind initial_target exists_ negb String.eqb Ascii.eqb Bool.eqb].
    rewrite Ht. cbn [bind].
    split.
    + destruct (at_min _ _ _); reflexivity.
    + destruct (at_max _ _ _); reflexivity.
  - intros ix u ret [E|E]; apply index_update_untouched in E;
      destruct E as (Hs & _ & Hn); auto.
Qed.


End ScatterBufferFacts.

Section ScatterFlatStore.

Context {T : Type} `{Scalar T}.

(** X17.  Whatever it is called with, [scatter_flat] returns an engine
    array and leaves every data slot as it was. *)
Lemma scatter_flat_store_unchanged
    (indices : ndarray Z) (updates : ndarray T) (size : option nat)
    (reduction : string) (out : option value) (st st' : store (T := T))
    (v : value) :
  scatter_flat indices updates size reduction out st = Ok (v, st') ->
  st' = st /\ exists n : native, v = VNative n.
Proof.
  unfold scatter_flat.
  destruct (check_size size out st) as [[]|e]; [|discriminate].
  cbn [bind].
  match goal with
  | |- bind ?r _ = _ -> _ => destruct r as [n|e]; [|discriminate]
  end.
  cbn [bind]. intros [= <- <-]. split; [reflexivity|]. now exists n.
Qed.

End ScatterFlatStore.

(** ** Concrete runs *)

(** [gather_nd] on a 2 x 3 array with the index tuples [(1,)] and
    [(0,)]: an instance of the block property. *)
Lemma gather_nd_block_property_witness :
  let params := mk_ndarray [2; 3]%nat [10; 11; 12; 20; 21; 22] in
  let indices := mk_ndarray [2; 1]%nat [1; 0] in
  exists ret : ndarray Z,
    gather_nd 0 params indices = Ok ret /\
    shape ret = removelast (shape indices) ++ skipn 1 (shape params) /\
    well_formed ret /\
    forall idx : list Z,
      length idx = length (removelast (shape indices)) ->
      tuple_in_range (removelast (shape indices)) idx = true ->
      exists (t : list Z) (block : ndarray Z),
        get_item indices idx = Some (mk_ndarray [1%nat] t) /\
        get_item params t = Some block /\
        shape block = skipn 1 (shape params) /\
        get_item ret idx = Some block.
Proof.
  intros params indices.
  apply (gather_nd_block_property 0 params indices 1%nat).
  - reflexivity.
  - reflexivity.
  - reflexivity.
  - simpl. lia.
  - simpl. lia.
  - reflexivity.
Defined.

(** With index tuples of length 0 the implicit factor is read from the
    wrapped-around position [-1] of the strides, a single element is
    gathered per tuple, and the final reshape to
    [indices.shape[:-1] + params.shape] fails. *)
Lemma gather_nd_zero_index_dims :
  let params := mk_ndarray [2%nat] [7; 8] in
  let indices := mk_ndarray [1; 0]%nat ([] : list Z) in
  well_formed params /\
  well_formed indices /\
  last_dim (shape indices) = Ok 0%nat /\
  (0 <= length (shape params))%nat /\
  forallb (tuple_in_range (shape params)) (index_tuples indices 0) = true /\
  gather_nd 0 params indices = Raise (EngineError CannotReshape) /\
  ~ (exists ret : ndarray Z,
        gather_nd 0 params indices = Ok ret /\
        shape ret = removelast (shape indices) ++ skipn 0 (shape params)).
Proof.
  intros params indices.
  repeat split; try reflexivity.
  - simpl. lia.
  - intros (ret & E & _). vm_compute in E. discriminate.
Qed.

(** [inplace_update] on the wrapper, on a bare array and on [None]. *)
Lemma inplace_update_contract_witness :
  inplace_update (VIvyArray 7) (VNative demo_val) false demo_store
  = Ok (VIvyArray 7, <[7%nat := demo_val]> demo_store) /\
  inplace_update (VNative demo_buffer) (VNative demo_val) false demo_store
  = Raise (IvyException (Text not_supported_message)) /\
  inplace_update (VOther "None") (VNative demo_val) false demo_store
  = Ok (VNative demo_val, demo_store).
Proof.
  destruct (inplace_update_contract demo_store (VNative demo_val))
    as (Hw & Hn & Ho).
  split; [|split].
  - apply (Hw 7%nat demo_buffer demo_val); reflexivity.
  - apply (Hn demo_buffer demo_val); reflexivity.
  - apply (Ho (VOther "None")); reflexivity.
Defined.

(** [ensure_in_backend=True] on two arrays. *)
Lemma inplace_update_ensure_in_backend_witness :
  inplace_update (VIvyArray 7) (VNative demo_val) true demo_store
  = Raise (IvyException (Text not_supported_message)) /\
  inplace_update (VNative demo_buffer) (VOther "None") true demo_store
  = Ok (VOther "None", demo_store).
Proof.
  split.
  - apply (proj1 (inplace_update_ensure_in_backend demo_store
                    (VIvyArray 7) (VNative demo_val))); reflexivity.
  - apply (proj2 (inplace_update_ensure_in_backend demo_store
                    (VNative demo_buffer) (VOther "None"))); reflexivity.
Defined.

(** [ensure_in_backend=True] with an [x] that is no array: the call
    does not fail, it returns [val]. *)
Lemma inplace_update_ensure_in_backend_passthrough :
  is_array (VOther "None" : value (T := float)) = false /\
  inplace_update (VOther "None") (VNative demo_val) true demo_store
  = Ok (VNative demo_val, demo_store) /\
  inplace_update (VOther "None") (VNative demo_val) true demo_store
  <> Raise (IvyException (Text not_supported_message)).
Proof. repeat split; try reflexivity. discriminate. Qed.

(** Incrementing the wrapper and a bare array by [[10.0, 20.0]]. *)
Lemma inplace_increment_decrement_contract_witness :
  let s := mk_native DeviceArray (mk_ndarray [2%nat] [11.0; 22.0]%float) in
  inplace_increment (VIvyArray 7) (VNative demo_val) demo_store
  = Ok (VIvyArray 7, <[7%nat := s]> demo_store) /\
  (exists r : nat,
      demo_store !! r = None /\
      inplace_increment (VNative demo_buffer) (VNative demo_val) demo_store
      = Ok (VIvyArray r, <[r := s]> demo_store)) /\
  inplace_decrement (VIvyArray 7) (VNative demo_val) demo_store
  <> Raise (IvyException (Text not_supported_message)).
Proof.
  intros s.
  destruct (inplace_increment_decrement_contract demo_store
              (VNative demo_val) demo_val eq_refl) as (Hw & Hn & He).
  split; [|split].
  - apply (proj1 (Hw 7%nat demo_buffer s eq_refl)). reflexivity.
  - destruct (Hn demo_buffer s) as (r & Hr & Hi & _).
    exists r. split; [exact Hr|]. apply Hi. reflexivity.
  - apply (proj2 (He (VIvyArray 7) (Text not_supported_message))).
Defined.

(** Operands whose shapes do not broadcast: the increment fails with
    the engine's error. *)
Lemma inplace_increment_can_fail :
  let val := VNative (mk_native DeviceArray
                        (mk_ndarray [3%nat] [1.0; 1.0; 1.0]%float)) in
  demo_store !! 7%nat = Some demo_buffer /\
  inplace_increment (VIvyArray 7) val demo_store
  = Raise (EngineError IncompatibleShapes) /\
  inplace_decrement (VNative demo_buffer) val demo_store
  = Raise (EngineError IncompatibleShapes).
Proof. repeat split; vm_compute; reflexivity. Qed.

(** A rejected reduction: "avg". *)
Lemma invalid_reduction_rejected_witness :
  scatter_flat (mk_ndarray [2%nat] [0; 2])
    (mk_ndarray [2%nat] [5.0; 3.0]%float) (Some 3%nat) "avg" None ∅
  = Raise (IvyException (Text (reduction_message "avg"))) /\
  (exists e : exn,
      scatter_nd (IArray (mk_ndarray [1; 1]%nat [0]))
        (mk_ndarray [1%nat] [5.0]%float) (Some [3%nat]) "avg" None ∅
      = Raise e) /\
  (exists rest : string,
      reduction_message "avg" = ("reduction is " ++ "avg" ++ rest)%string).
Proof.
  assert (Hbad : ~ In "avg"%string ["sum"; "replace"; "min"; "max"]%string).
  { simpl. intros [E|[E|[E|[E|[]]]]]; discriminate. }
  destruct (invalid_reduction_rejected (T := float) "avg" Hbad)
    as (Hflat & Hnd & Hmsg).
  split; [|split].
  - exact (proj2 (proj2 (Hflat _ _ _ None _))).
  - exact (proj1 (Hnd _ _ _ _ _)).
  - exact Hmsg.
Defined.

(** With "avg" and updates that do not broadcast to the expected shape
    [(1, 3)], [scatter_nd] fails in its preprocessing, with the
    engine's broadcasting error; the reduction is never looked at. *)
Lemma invalid_reduction_not_reached :
  ~ In "avg"%string ["sum"; "replace"; "min"; "max"]%string /\
  scatter_nd (IArray (mk_ndarray [1; 1]%nat [0]))
    (mk_ndarray [2%nat] [5.0; 3.0]%float) (Some [5; 3]%nat) "avg" None ∅
  = Raise (EngineError IncompatibleShapes) /\
  scatter_nd (IArray (mk_ndarray [1; 1]%nat [0]))
    (mk_ndarray [2%nat] [5.0; 3.0]%float) (Some [5; 3]%nat) "avg" None ∅
  <> Raise (IvyException (Text (reduction_message "avg"))).
Proof.
  split; [|split].
  - simpl. intros [E|[E|[E|[E|[]]]]]; discriminate.
  - vm_compute. reflexivity.
  - vm_compute. discriminate.
Qed.

(** A buffer of shape [(2,)] against [size=3] and [shape=(3,)]. *)
Lemma shape_mismatch_rejected_witness :
  (exists x1 x2 : operand,
      scatter_flat (mk_ndarray [1%nat] [0]) (mk_ndarray [1%nat] [5.0]%float)
        (Some 3%nat) "sum" (Some (VIvyArray 7)) demo_store
      = Raise (IvyException (MustBeEqual x1 x2))) /\
  scatter_flat (mk_ndarray [1%nat] [0]) (mk_ndarray [1%nat] [5.0]%float)
    (Some 2%nat) "sum" (Some (VIvyArray 7)) demo_store
  = scatter_flat (mk_ndarray [1%nat] [0]) (mk_ndarray [1%nat] [5.0]%float)
      None "sum" (Some (VIvyArray 7)) demo_store /\
  scatter_nd (IArray (mk_ndarray [1; 1]%nat [0]))
    (mk_ndarray [1%nat] [5.0]%float) (Some [3%nat]) "sum"
    (Some (VIvyArray 7)) demo_store
  = Raise (IvyException (MustBeEqual (OShape [2%nat]) (OShape [3%nat]))).
Proof.
  destruct (shape_mismatch_rejected "sum" (VIvyArray 7) demo_buffer
              demo_store eq_refl) as (Hflat & Hnd).
  split; [|split].
  - apply (proj1 (Hflat _ _ 3%nat)). simpl. discriminate.
  - apply (proj2 (Hflat _ _ 2%nat)). reflexivity.
  - destruct (Hnd (IArray (mk_ndarray [1; 1]%nat [0]))
                (mk_ndarray [1%nat] [5.0]%float) [3%nat]) as (_ & Hops).
    + simpl. discriminate.
    + eapply Hops. vm_compute. reflexivity.
Defined.

(** A buffer of shape [(4, 3)] against [shape=(3, 3)], with updates of
    shape [(2,)] that do not broadcast to the expected shape [(1, 3)]:
    the failure is the engine's broadcasting error, raised before the
    shapes are compared. *)
Lemma shape_mismatch_not_reached :
  let buffer := mk_native DeviceArray (zeros [4; 3]%nat) in
  let st : store := {[ 7%nat := buffer ]} in
  as_native st (VIvyArray 7) = Ok buffer /\
  shape (arr buffer) <> [3; 3]%nat /\
  scatter_nd (IArray (mk_ndarray [1; 1]%nat [0]))
    (mk_ndarray [2%nat] [5.0; 3.0]%float) (Some [3; 3]%nat) "sum"
    (Some (VIvyArray 7)) st
  = Raise (EngineError IncompatibleShapes).
Proof.
  split; [|split].
  - reflexivity.
  - simpl. discriminate.
  - vm_compute. reflexivity.
Qed.

(** "min" into a buffer [[1e12, 7.0, 1e12]] at position 1 and at
    position 2: the untouched [1e12] at position 0 and the addressed
    one at position 2 both survive. *)
Lemma min_max_into_given_buffer_witness :
  let buffer := mk_native DeviceArray
                  (mk_ndarray [3%nat] [1e12; 7.0; 1e12]%float) in
  let st : store := {[ 7%nat := buffer ]} in
  let indices := mk_ndarray [2%nat] [1; 2] in
  let updates := mk_ndarray [2%nat] [3.0; 2e12]%float in
  let ret := mk_ndarray [3%nat] [1e12; 3.0; 1e12]%float in
  scatter_flat indices updates None "min" (Some (VIvyArray 7)) st
  = Ok (VNative (mk_native DeviceArray ret), st) /\
  scatter_nd (IArray (mk_ndarray [2; 1]%nat [1; 2])) updates None "min"
    (Some (VIvyArray 7)) st
  = Ok (VIvyArray 7, <[7%nat := mk_native DeviceArray ret]> st) /\
  nth 0 (data ret) 0%float = nth 0 (data (arr buffer)) 0%float.
Proof.
  intros buffer st indices updates ret.
  destruct (min_max_into_given_buffer (VIvyArray 7) buffer st eq_refl)
    as (Hflat & Hnd & Hun).
  split; [|split].
  - rewrite (proj1 (Hflat indices updates None eq_refl)). reflexivity.
  - rewrite (proj1 (Hnd (IArray (mk_ndarray [2; 1]%nat [1; 2])) updates None
                      (mk_indexer 1 [2%nat] [[1]; [2]]) updates [3%nat]
                      eq_refl eq_refl)).
    reflexivity.
  - apply (Hun (flat_indexer indices) updates ret).
    + left. reflexivity.
    + intros tu Hin (o & Ho & Hp).
      simpl in Hin. destruct Hin as [<-|[<-|[]]];
        vm_compute in Ho; injection Ho as <-; simpl in Hp; lia.
Defined.


(** * Further properties of the module *)

(** ** Classification of engine arrays *)

Section ClassificationFacts.

Context {T : Type} `{Scalar T}.

(** X1.  Whatever [is_native_array] accepts is an engine object, and
    what the exclusive test accepts the inclusive test accepts too;
    wrappers and other objects are never native arrays, and the three
    tracing proxies are accepted by the inclusive test only. *)
Theorem is_native_array_classes (x : value (T := T)) (exclusive : bool) :
  is_native_array x exclusive = true ->
  (exists n : native, x = VNative n) /\
  is_native_array x false = true /\
  (exclusive = true ->
   ~ In (match x with VNative n => cls n | _ => DeviceArray end)
        [JVPTracer; ShapedArray; DynamicJaxprTracer]).
Proof.
  destruct x as [[c a]|r|s]; cbn [is_native_array]; try discriminate.
  intros Hx. split; [eauto|]. split.
  - destruct c; reflexivity.
  - intros ->. cbn [cls]. destruct c; try discriminate Hx;
      simpl; intros [E|[E|[E|[]]]]; discriminate.
Qed.

End ClassificationFacts.

(** ** Aliasing in the in-place emulation *)

Section InplaceFrame.

Context {T : Type} `{Scalar T}.

(** X2.  After a successful [inplace_update] of a wrapper with an
    array [val], the wrapper that is returned is the one that was
    passed, reading it gives the native value of [val], and the data
    slot of every other wrapper is what it was. *)
Theorem inplace_update_read_back
    (r : nat) (val v : value) (e : bool) (st st' : store (T := T)) :
  is_array val = true ->
  inplace_update (VIvyArray r) val e st = Ok (v, st') ->
  v = VIvyArray r /\
  to_native st' v = to_native st val /\
  forall r' : nat, r' <> r -> st' !! r' = st !! r'.
Proof.
  intros Hval. unfold inplace_update. rewrite Hval.
  cbn [is_array is_ivy_array orb andb].
  destruct e; [discriminate|]. unfold args_to_native. cbn [to_native].
  destruct (st !! r) as [old|] eqn:Hr; [|discriminate]. cbn [bind].
  destruct (to_native st val) as [[d| |]|err] eqn:Hv; try discriminate.
  cbn [bind]. intros [= <- <-]. split; [reflexivity|]. split.
  - cbn [to_native]. unfold store in *. now rewrite lookup_insert_eq.
  - intros r' Hne. unfold store in *. now rewrite lookup_insert_ne.
Qed.

(** X3.  None of the three in-place functions touches the data slot of
    a wrapper other than the [x] it is given: an increment of a bare
    array puts its result into a wrapper that did not exist before. *)
Theorem inplace_functions_frame
    (x val v : value) (e : bool) (st st' : store (T := T)) :
  inplace_update x val e st = Ok (v, st') \/
  inplace_increment x val st = Ok (v, st') \/
  inplace_decrement x val st = Ok (v, st') ->
  forall (r : nat) (d : native),
    x <> VIvyArray r -> st !! r = Some d -> st' !! r = Some d.
Proof.
  intros Hcall r d Hx Hr.
  assert (Hfresh : forall s : native,
             (<[fresh (dom st) := s]> st : store) !! r = Some d).
  { intros s. unfold store in *. rewrite lookup_insert_ne; [exact Hr|].
    intros E. pose proof (is_fresh (dom st)) as Hf. rewrite E in Hf.
    apply Hf. apply elem_of_dom. eauto. }
  assert (Hother : forall (r0 : nat) (s : native),
             x = VIvyArray r0 -> (<[r0 := s]> st : store) !! r = Some d).
  { intros r0 s ->. unfold store in *. rewrite lookup_insert_ne; [exact Hr|].
    intros ->. now apply Hx. }
  destruct Hcall as [E|[E|E]].
  - unfold inplace_update in E.
    destruct (is_array x && is_array val); [|now injection E as <- <-].
    destruct e; [discriminate|].
    destruct (args_to_native st x val) as [[xn vn]|err]; [|discriminate].
    cbn [bind] in E.
    destruct x as [n|r0|s0]; try discriminate.
    destruct vn as [dn| |]; try discriminate.
    injection E as <- <-. now apply Hother.
  - unfold inplace_increment in E.
    destruct (args_to_native st x val) as [[xn vn]|err]; [|discriminate].
    cbn [bind] in E.
    destruct x as [n|r0|s0].
    + destruct (arith add xn vn) as [s|err]; [|discriminate].
      injection E as <- <-. apply Hfresh.
    + destruct (to_native st (VIvyArray r0)) as [dv|err]; [|discriminate].
      cbn [bind] in E.
      destruct (arith add dv vn) as [s|err]; [|discriminate].
      injection E as <- <-. now apply Hother.
    + destruct (arith add xn vn) as [s|err]; [|discriminate].
      injection E as <- <-. apply Hfresh.
  - unfold inplace_decrement in E.
    destruct (args_to_native st x val) as [[xn vn]|err]; [|discriminate].
    cbn [bind] in E.
    destruct x as [n|r0|s0].
    + destruct (arith sub xn vn) as [s|err]; [|discriminate].
      injection E as <- <-. apply Hfresh.
    + destruct (to_native st (VIvyArray r0)) as [dv|err]; [|discriminate].
      cbn [bind] in E.
      destruct (arith sub dv vn) as [s|err]; [|discriminate].
      injection E as <- <-. now apply Hother.
    + destruct (arith sub xn vn) as [s|err]; [|discriminate].
      injection E as <- <-. apply Hfresh.
Qed.

End InplaceFrame.

(** ** Targets of the scatter functions *)

Section ScatterTargetFacts.

Context {T : Type} `{Scalar T}.

Lemma zeros_well_formed (s : list nat) : well_formed (zeros (T := T) s).
Proof. unfold well_formed, zeros. cbn [data shape]. apply repeat_length. Qed.

Lemma ones_times_well_formed (s : list nat) (c : T) :
  well_formed (ones_times s c).
Proof.
  unfold well_formed, ones_times. cbn [data shape].
  now rewrite length_map, repeat_length.
Qed.

Lemma index_update_well_formed (op : T -> T -> T) (target : ndarray T)
    (ix : indexer) (u ret : ndarray T) :
  well_formed target ->
  index_update op target ix u = Ok ret ->
  shape ret = shape target /\ well_formed ret.
Proof.
  intros Hwf E. apply index_update_untouched in E as (Hs & Hl & _).
  split; [exact Hs|]. unfold well_formed in *. congruence.
Qed.

Lemma where_eq_zero_well_formed (c : T) (a : ndarray T) :
  well_formed a -> well_formed (where_eq_zero c a).
Proof.
  unfold well_formed, where_eq_zero. cbn [data shape].
  now rewrite length_map.
Qed.

(** The four reductions on a fresh target: what comes back has the
    shape of the target it started from, and is well formed. *)
Lemma reduce_fresh_target (reduction : string) (s : list nat)
    (ix : indexer) (updates : ndarray T) (st : store (T := T)) (t : native) :
  (if String.eqb reduction "sum" then
     let* t := initial_target st None (Ok (zeros s)) in
     let* a := at_add (arr t) ix updates in
     Ok (mk_native (scatter_class t) a)
   else if String.eqb reduction "replace" then
     let* t := initial_target st None (Ok (zeros s)) in
     let* a := at_set (arr t) ix updates in
     Ok (mk_native (scatter_class t) a)
   else if String.eqb reduction "min" then
     let* t := initial_target st None (Ok (ones_times s big)) in
     let* a := at_min (arr t) ix updates in
     Ok (mk_native (scatter_class t)
           (if negb (exists_ (@None (@value T))) then where_eq_zero big a
            else a))
   else if String.eqb reduction "max" then
     let* t := initial_target st None (Ok (ones_times s (opp big))) in
     let* a := at_max (arr t) ix updates in
     Ok (mk_native (scatter_class t)
           (if negb (exists_ (@None (@value T)))
            then where_eq_zero (opp big) a else a))
   else Raise (IvyException (Text (reduction_message reduction)))) = Ok t ->
  cls t = DeviceArray /\ shape (arr t) = s /\ well_formed (arr t).
Proof.
  cbn [initial_target bind exists_ negb cls arr].
  change (scatter_class (mk_native DeviceArray ?a)) with DeviceArray.
  unfold at_add, at_set, at_min, at_max.
  destruct (String.eqb reduction "sum");
    [|destruct (String.eqb reduction "replace");
      [|destruct (String.eqb reduction "min");
        [|destruct (String.eqb reduction "max"); [|discriminate]]]].
  all: match goal with
       | |- bind (index_update ?op ?tg ?i ?u) _ = _ -> _ =>
           destruct (index_update op tg i u) as [a|e] eqn:E;
           [|discriminate];
           apply index_update_well_formed in E as (Hs & Hwf);
           [|first [apply zeros_well_formed|apply ones_times_well_formed]]
       end.
  all: cbn [bind]; intros [= <-]; cbn [cls arr].
  all: split; [reflexivity|].
  all: first [split; [exact Hs|exact Hwf]
             |split; [exact Hs|now apply where_eq_zero_well_formed]].
Qed.

(** X4.  Without an output buffer a scatter that returns at all returns
    a new, well-formed engine array of exactly the requested shape
    ([(size,)] for [scatter_flat], [shape] for [scatter_nd]) and leaves
    the store alone; a [scatter_flat] that is given neither [size] nor
    [out] never returns. *)
Theorem fresh_scatter_shape
    (updates : ndarray T) (reduction : string) (st st' : store (T := T))
    (v : value) :
  (forall (indices : ndarray Z) (size : option nat),
      scatter_flat indices updates size reduction None st = Ok (v, st') ->
      exists (n : nat) (a : ndarray T),
        size = Some n /\ v = VNative (mk_native DeviceArray a) /\
        shape a = [n] /\ well_formed a /\ st' = st) /\
  (forall (indices : index_arg) (shp : option (list nat)),
      scatter_nd indices updates shp reduction None st = Ok (v, st') ->
      exists (s : list nat) (a : ndarray T),
        shp = Some s /\ v = VNative (mk_native DeviceArray a) /\
        shape a = s /\ well_formed a /\ st' = st).
Proof.
  split.
  - intros indices size. unfold scatter_flat.
    replace (check_size size None st) with (Ok (A := unit) tt)
      by (destruct size; reflexivity).
    cbn [bind]. destruct size as [n|].
    + cbn [fresh_flat].
      match goal with
      | |- bind ?r _ = _ -> _ => destruct r as [t|e] eqn:E; [|discriminate]
      end.
      apply reduce_fresh_target in E as (Hc & Hs & Hwf).
      cbn [bind]. unfold _to_device. intros [= <- <-].
      exists n, (arr t). repeat split; try assumption.
      destruct t as [c a]. cbn in *. now subst c.
    + cbn [fresh_flat initial_target bind].
      destruct (String.eqb reduction "sum"); [discriminate|].
      destruct (String.eqb reduction "replace"); [discriminate|].
      destruct (String.eqb reduction "min"); [discriminate|].
      destruct (String.eqb reduction "max"); discriminate.
  - intros indices shp. unfold scatter_nd.
    destruct (scatter_nd_operands indices updates shp None st)
      as [[ix u]|e]; [|discriminate].
    cbn [bind]. unfold target_shape. cbn [bind].
    destruct shp as [s|]; [|discriminate]. cbn [bind].
    match goal with
    | |- bind ?r _ = _ -> _ => destruct r as [t|e] eqn:E; [|discriminate]
    end.
    apply reduce_fresh_target in E as (Hc & Hs & Hwf).
    cbn [bind]. unfold _to_device. intros [= <- <-].
    exists s, (arr t). repeat split; try assumption.
    destruct t as [c a]. cbn in *. now subst c.
Qed.

End ScatterTargetFacts.

(** ** [scatter_nd] and its output buffer *)

Section ScatterOutFacts.

Context {T : Type} `{Scalar T}.

Lemma scatter_nd_operands_out_ext
    (indices : index_arg) (updates : ndarray T) (shp : option (list nat))
    (o1 o2 : value) (st : store (T := T)) :
  as_native st o1 = as_native st o2 ->
  scatter_nd_operands indices updates shp (Some o1) st
  = scatter_nd_operands indices updates shp (Some o2) st.
Proof.
  intros E. unfold scatter_nd_operands, expected_shape_of. now rewrite E.
Qed.

Lemma target_shape_out_ext
    (shp : option (list nat)) (o1 o2 : value) (st : store (T := T)) :
  as_native st o1 = as_native st o2 ->
  target_shape shp (Some o1) st = target_shape shp (Some o2) st.
Proof. intros E. unfold target_shape. now rewrite E. Qed.

(** What [scatter_nd] computes before it hands the result to
    [inplace_update] depends on [out] only through the engine array
    behind it. *)
Lemma scatter_nd_with_out
    (indices : index_arg) (updates : ndarray T) (shp : option (list nat))
    (reduction : string) (o : value) (old : native) (st : store (T := T)) :
  as_native st o = Ok old ->
  exists res : result native,
    scatter_nd indices updates shp reduction (Some o) st
    = (let* t := res in inplace_update o (VNative t) false st) /\
    (forall t, res = Ok t ->
               cls t = scatter_class old /\ shape (arr t) = shape (arr old) /\
               length (data (arr t)) = length (data (arr old))) /\
    (forall o' : value,
        as_native st o' = Ok old ->
        scatter_nd indices updates shp reduction (Some o') st
        = (let* t := res in inplace_update o' (VNative t) false st)).
Proof.
  intros Ho.
  assert (Hgen : forall o' : value,
             as_native st o' = Ok old ->
             scatter_nd indices updates shp reduction (Some o') st
             = (let* t :=
                  (let* '(ix, u) :=
                     scatter_nd_operands indices updates shp (Some o) st in
                   let* _ := target_shape shp (Some o) st in
                   if String.eqb reduction "sum" then
                     let* a := at_add (arr old) ix u in
                     Ok (mk_native (scatter_class old) a)
                   else if String.eqb reduction "replace" then
                     let* a := at_set (arr old) ix u in
                     Ok (mk_native (scatter_class old) a)
                   else if String.eqb reduction "min" then
                     let* a := at_min (arr old) ix u in
                     Ok (mk_native (scatter_class old) a)
                   else if String.eqb reduction "max" then
                     let* a := at_max (arr old) ix u in
                     Ok (mk_native (scatter_class old) a)
                   else Raise (IvyException (Text (reduction_message reduction))))
                in inplace_update o' (VNative t) false st)).
  { intros o' Ho'. unfold scatter_nd, ivy_inplace_update.
    rewrite (scatter_nd_operands_out_ext indices updates shp o' o st)
      by congruence.
    rewrite (target_shape_out_ext shp o' o st) by congruence.
    destruct (scatter_nd_operands indices updates shp (Some o) st)
      as [[ix u]|e]; [|reflexivity].
    cbn [bind]. destruct (target_shape shp (Some o) st) as [s|e]; [|reflexivity].
    cbn [bind initial_target exists_ negb]. rewrite Ho'. cbn [bind].
    unfold _to_device.
    destruct (String.eqb reduction "sum");
      [destruct (at_add _ _ _); reflexivity|].
    destruct (String.eqb reduction "replace");
      [destruct (at_set _ _ _); reflexivity|].
    destruct (String.eqb reduction "min");
      [destruct (at_min _ _ _); reflexivity|].
    destruct (String.eqb reduction "max");
      [destruct (at_max _ _ _); reflexivity|].
    reflexivity. }
  eexists. split; [exact (Hgen o Ho)|]. split; [|exact Hgen].
  intros t.
  destruct (scatter_nd_operands indices updates shp (Some o) st)
    as [[ix u]|e]; [|discriminate].
  cbn [bind]. destruct (target_shape shp (Some o) st) as [s|e]; [|discriminate].
  cbn [bind]. unfold at_add, at_set, at_min, at_max.
  destruct (String.eqb reduction "sum");
    [|destruct (String.eqb reduction "replace");
      [|destruct (String.eqb reduction "min");
        [|destruct (String.eqb reduction "max"); [|discriminate]]]].
  all: match goal with
       | |- bind (index_update ?op ?tg ?i ?v) _ = _ -> _ =>
           destruct (index_update op tg i v) as [a|e] eqn:E; [|discriminate];
           apply index_update_untouched in E as (Hs & Hl & _)
       end.
  all: cbn [bind]; intros [= <-]; cbn [cls arr]; auto.
Qed.

(** The closing [inplace_update] of [scatter_nd] on a wrapper: the data
    slot is rebound to the computed array. *)
Lemma inplace_update_rebinds (r : nat) (old d : native)
    (st : store (T := T)) :
  st !! r = Some old ->
  inplace_update (VIvyArray r) (VNative d) false st
  = Ok (VIvyArray r, <[r := d]> st).
Proof.
  intros Hr. unfold inplace_update, args_to_native.
  rewrite (is_array_native d).
  cbn [is_array is_ivy_array orb andb to_native bind]. now rewrite Hr.
Qed.

(** X5.  [scatter_nd] with a wrapper as [out] returns that same wrapper;
    afterwards its data slot holds an array of the shape and size the
    buffer had, of the class of an engine result (concrete, unless
    the buffer held a tracing proxy), and the slot of every other
    wrapper is as before. *)
Theorem scatter_nd_into_wrapper
    (indices : index_arg) (updates : ndarray T) (shp : option (list nat))
    (reduction : string) (r : nat) (old : native) (st st' : store (T := T))
    (v : value) :
  st !! r = Some old ->
  scatter_nd indices updates shp reduction (Some (VIvyArray r)) st
  = Ok (v, st') ->
  v = VIvyArray r /\
  (exists new : native,
      st' !! r = Some new /\
      cls new = result_class (cls old) DeviceArray /\
      shape (arr new) = shape (arr old) /\
      length (data (arr new)) = length (data (arr old))) /\
  forall r' : nat, r' <> r -> st' !! r' = st !! r'.
Proof.
  intros Hr E.
  assert (Ho : as_native st (VIvyArray r) = Ok old).
  { unfold as_native. cbn [to_native]. now rewrite Hr. }
  destruct (scatter_nd_with_out indices updates shp reduction
              (VIvyArray r) old st Ho) as (res & Eq & Hres & _).
  rewrite Eq in E. destruct res as [t|e]; [|discriminate].
  cbn [bind] in E.
  destruct (Hres t eq_refl) as (Hc & Hs & Hl).
  unfold _to_device in E. rewrite (inplace_update_rebinds r old t st Hr) in E.
  injection E as <- <-. unfold store in *.
  split; [reflexivity|]. split.
  - exists t. rewrite lookup_insert_eq. auto.
  - intros r' Hne. now rewrite lookup_insert_ne.
Qed.

End ScatterOutFacts.

(** ** More on [gather_nd] *)

Lemma res_dim_sizes_list_length (s : list nat) :
  length (res_dim_sizes_list s) = Nat.max 1 (length s).
Proof.
  unfold res_dim_sizes_list.
  rewrite length_app, length_map, length_seq. simpl. lia.
Qed.

Section GatherBounds.

Context {T : Type}.
Variable fill : T.

(** X7.  [gather_nd] refuses index tuples that are longer than the rank
    of [params] (the strides cannot be reshaped to the extent of the
    last axis of [indices]), and an [indices] of rank 0, which has no
    last axis. *)
Theorem gather_nd_rejects (params : ndarray T) (indices : ndarray Z) :
  (shape indices = [] ->
   gather_nd fill params indices = Raise (EngineError TupleIndexOutOfRange)) /\
  (forall k : nat,
      last_dim (shape indices) = Ok k ->
      (1 < k)%nat -> (length (shape params) < k)%nat ->
      gather_nd fill params indices = Raise (EngineError CannotReshape)).
Proof.
  split.
  - intros E. unfold gather_nd. now rewrite E.
  - intros k Hk H1 Hrank. unfold gather_nd. rewrite Hk. cbn [bind].
    rewrite length_firstn, res_dim_sizes_list_length.
    destruct (Nat.eqb_spec (Nat.min k (Nat.max 1 (length (shape params)))) k)
      as [E|_]; [lia|]. reflexivity.
Qed.

(** X8.  [gather_nd] checks no coordinate against its axis: all that
    counts of an index tuple is its weighted sum with the strides.
    Whenever the run of [size(params.shape[k:])] elements that starts
    at that sum lies inside the flat data, this run is the block the
    tuple gathers, whether or not the coordinates are in range. *)
Theorem gather_nd_reads_flat_runs
    (params : ndarray T) (indices : ndarray Z) (k : nat) :
  well_formed params ->
  last_dim (shape indices) = Ok k ->
  (1 <= k <= length (shape params))%nat ->
  Z.of_nat (size_of (shape params)) <= 2 ^ 31 ->
  (forall t : list Z,
      In t (index_tuples indices k) ->
      0 <= dot t (firstn k (strides (shape params))) /\
      dot t (firstn k (strides (shape params)))
      + Z.of_nat (size_of (skipn k (shape params)))
      <= Z.of_nat (size_of (shape params))) ->
  gather_nd fill params indices =
  Ok (mk_ndarray
        (removelast (shape indices) ++ skipn k (shape params))
        (concat
           (map (fun t =>
                   firstn (size_of (skipn k (shape params)))
                     (skipn (Z.to_nat (dot t (firstn k (strides (shape params)))))
                        (data params)))
              (index_tuples indices k)))).
Proof.
  intros Hwf Hk Hrank H32 Hruns. unfold well_formed in Hwf.
  rewrite (gather_nd_unfold fill params indices k Hk Hrank).
  set (f := size_of (skipn k (shape params))) in *.
  set (st := firstn k (strides (shape params))) in *.
  assert (Hmap :
    map (fun t => take fill (data params)
                    (map astype_int32 (map (fun i => dot t st + i) (arange f))))
        (index_tuples indices k)
    = map (fun t => firstn f (skipn (Z.to_nat (dot t st)) (data params)))
        (index_tuples indices k)).
  { apply map_ext_in. intros t Ht. destruct (Hruns t Ht) as [H0 Hfit].
    rewrite <- (take_window fill (data params) (Z.to_nat (dot t st)) f)
      by lia.
    rewrite Z2Nat.id by assumption. reflexivity. }
  rewrite Hmap. unfold reshape.
  rewrite (concat_uniform_length _ f).
  - rewrite length_map. unfold index_tuples at 1.
    rewrite length_map, length_seq, size_of_app. fold f.
    now rewrite Nat.eqb_refl.
  - apply List.Forall_forall. intros b Hb.
    apply in_map_iff in Hb as (t & <- & Ht). destruct (Hruns t Ht) as [H0 Hfit].
    rewrite length_firstn, length_skipn. lia.
Qed.

End GatherBounds.

(** On a 2 x 3 array the out-of-range tuple [(0, 4)] gathers what the
    in-range tuple [(1, 1)] gathers. *)
Lemma gather_nd_reads_flat_runs_witness :
  let params := mk_ndarray [2; 3]%nat [10; 11; 12; 20; 21; 22] in
  let indices := mk_ndarray [2; 2]%nat [0; 4; 1; 1] in
  forallb (tuple_in_range (shape params)) (index_tuples indices 2) = false /\
  gather_nd 0 params indices = Ok (mk_ndarray [2%nat] [21; 21]).
Proof.
  intros params indices. split; [reflexivity|].
  rewrite (gather_nd_reads_flat_runs 0 params indices 2%nat).
  - reflexivity.
  - reflexivity.
  - reflexivity.
  - simpl. lia.
  - simpl. lia.
  - intros t Ht. simpl in Ht. destruct Ht as [<-|[<-|[]]]; vm_compute;
      split; discriminate.
Defined.

(** Index tuples of length 3 on a matrix, and an [indices] of rank 0. *)
Lemma gather_nd_rejects_witness :
  gather_nd 0 (mk_ndarray [2; 3]%nat [10; 11; 12; 20; 21; 22])
    (mk_ndarray [1; 3]%nat [0; 0; 0])
  = Raise (EngineError CannotReshape) /\
  gather_nd 0 (mk_ndarray [2; 3]%nat [10; 11; 12; 20; 21; 22])
    (mk_ndarray [] [0])
  = Raise (EngineError TupleIndexOutOfRange).
Proof.
  split.
  - apply (proj2 (gather_nd_rejects 0 _ _) 3%nat); [reflexivity|lia|simpl; lia].
  - apply (proj1 (gather_nd_rejects 0 _ _)). reflexivity.
Defined.

(** ** Values that a scatter can produce *)

Lemma chunks_Forall {A} (P : A -> Prop) (sz n : nat) (l : list A) :
  List.Forall P l -> List.Forall (List.Forall P) (chunks sz n l).
Proof.
  intros Hl. unfold chunks. apply List.Forall_forall. intros b Hb.
  apply in_map_iff in Hb as (j & <- & _).
  apply Forall_take, Forall_drop, Hl.
Qed.

Lemma stretch_Forall {A} (P : A -> Prop) (s target : list nat) (l r : list A) :
  List.Forall P l -> stretch s target l = Ok r -> List.Forall P r.
Proof.
  revert target l r. induction s as [|d s IH]; intros [|t target] l r Hl;
    simpl; try discriminate.
  - now intros [= <-].
  - destruct (Nat.eqb d t).
    + destruct (sequence_result _) as [parts|e] eqn:Es; [|discriminate].
      cbn [bind]. intros [= <-].
      apply sequence_result_Forall2 in Es.
      apply Forall_concat.
      pose proof (chunks_Forall P (size_of s) d l Hl) as Hc.
      revert Hc. induction Es as [|c p cs ps Hcp _ IHF]; intros Hc.
      * constructor.
      * inversion Hc; subst. constructor; [|now apply IHF].
        eapply IH; eassumption.
    + destruct (Nat.eqb d 1); [|discriminate].
      destruct (stretch s target l) as [part|e] eqn:Es; [|discriminate].
      cbn [bind]. intros [= <-]. apply Forall_concat.
      apply List.Forall_forall. intros b Hb. apply repeat_spec in Hb as ->.
      eapply IH; eassumption.
Qed.

Lemma broadcast_to_Forall {A} (P : A -> Prop) (a r : ndarray A)
    (target : list nat) :
  List.Forall P (data a) -> broadcast_to a target = Ok r ->
  List.Forall P (data r).
Proof.
  intros Ha. unfold broadcast_to. destruct (_ <? _)%nat; [discriminate|].
  destruct (compatible _ _); [|discriminate].
  destruct (stretch _ target (data a)) as [l|e] eqn:Es; [|discriminate].
  cbn [bind]. intros [= <-]. cbn [data]. eapply stretch_Forall; eassumption.
Qed.

Lemma zip_with_Forall {A} (P : A -> Prop) (op : A -> A -> A) (l1 l2 : list A) :
  (forall a b, P a -> P b -> P (op a b)) ->
  List.Forall P l1 -> List.Forall P l2 -> List.Forall P (zip_with op l1 l2).
Proof.
  intros Hop H1. revert l2. unfold zip_with.
  induction H1 as [|a l1 Ha _ IH]; intros l2 H2; [constructor|].
  destruct H2 as [|b l2 Hb H2]; [constructor|].
  cbn [combine map fst snd]. constructor; [now apply Hop|now apply IH].
Qed.

Lemma repeat_of_Forall_eq {A} (x : A) (l : list A) :
  List.Forall (fun y => y = x) l -> l = repeat x (length l).
Proof. induction 1 as [|y l -> _ IH]; simpl; congruence. Qed.

Section ScatterValueFacts.

Context {T : Type} `{Scalar T}.

(** An indexed update whose operation stays inside a set of values
    stays inside it, if the target and the updates start there. *)
Lemma index_update_Forall (P : T -> Prop) (op : T -> T -> T)
    (target : ndarray T) (ix : indexer) (updates ret : ndarray T) :
  (forall a b, P a -> P b -> P (op a b)) ->
  List.Forall P (data target) -> List.Forall P (data updates) ->
  index_update op target ix updates = Ok ret ->
  List.Forall P (data ret).
Proof.
  intros Hop Ht Hu. unfold index_update.
  destruct (_ <? _)%nat; [discriminate|].
  destruct (is_empty_shape _); [now intros [= <-]|].
  destruct (broadcast_to updates _) as [u|e] eqn:Eb; [|discriminate].
  cbn [bind]. intros [= <-]. cbn [data].
  apply (broadcast_to_Forall P) in Eb; [|assumption].
  pose proof (chunks_Forall P
                (size_of (skipn (num_axes ix) (shape target)))
                (length (index_tuples_of ix)) (data u) Eb) as Hc.
  revert Hc. generalize (chunks (size_of (skipn (num_axes ix) (shape target)))
                           (length (index_tuples_of ix)) (data u)) as blocks.
  generalize (index_tuples_of ix) as tuples.
  revert Ht. generalize (data target) as l.
  intros l Hl tuples. revert l Hl.
  induction tuples as [|t tuples IH]; intros l Hl blocks Hc; [exact Hl|].
  destruct blocks as [|b blocks]; [exact Hl|].
  inversion Hc; subst. cbn [combine fold_left]. apply IH; [|assumption].
  unfold scatter_step. cbn [fst snd].
  destruct (tuple_offset (shape target) t); [|exact Hl].
  unfold write_block. apply Forall_app. split; [now apply Forall_take|].
  apply Forall_app. split; [|now apply Forall_drop].
  apply zip_with_Forall; [assumption| |assumption].
  now apply Forall_take, Forall_drop.
Qed.

(** X9.  Summing updates that are all zero into a fresh target gives
    the all-zero array of length [size], whatever the indices are
    (repeated, negative or out of range), provided [0 + 0 = 0] in the
    element type. *)
Theorem scatter_flat_sum_of_zeros
    (indices : ndarray Z) (updates_shape : list nat) (n : nat)
    (st st' : store (T := T)) (v : value) :
  add zero zero = zero ->
  scatter_flat indices (zeros updates_shape) (Some n) "sum" None st
  = Ok (v, st') ->
  v = VNative (mk_native DeviceArray (zeros [n])).
Proof.
  intros Hadd E. unfold scatter_flat in E.
  cbn [check_size bind String.eqb Ascii.eqb Bool.eqb initial_target fresh_flat
       arr cls] in E.
  unfold at_add in E.
  destruct (index_update add (zeros [n]) (flat_indexer indices)
              (zeros updates_shape)) as [a|e] eqn:Ei; [|discriminate].
  cbn [bind] in E. unfold _to_device in E. injection E as <- _.
  do 2 f_equal.
  destruct (index_update_well_formed add (zeros [n]) (flat_indexer indices)
              (zeros updates_shape) a (zeros_well_formed [n]) Ei) as (Hs & Hwf).
  apply (index_update_Forall (fun y => y = zero)) in Ei.
  - destruct a as [s l]. cbn [shape zeros] in Hs. subst s.
    unfold zeros. f_equal. unfold well_formed in Hwf. cbn [data shape] in Hwf.
    rewrite <- Hwf. now apply repeat_of_Forall_eq.
  - intros a0 b -> ->. exact Hadd.
  - unfold zeros. cbn [data]. apply List.Forall_forall.
    intros y Hy. now apply repeat_spec in Hy.
  - unfold zeros. cbn [data]. apply List.Forall_forall.
    intros y Hy. now apply repeat_spec in Hy.
Qed.

End ScatterValueFacts.

Section SentinelFacts.

Context {T : Type} `{Scalar T}.

Lemma flat_index_addresses (n p : nat) (i : Z) :
  addressed [n] 1 [i] p ->
  i = Z.of_nat p \/ i = Z.of_nat p - Z.of_nat n.
Proof.
  intros (o & Ho & Hp). cbn [tuple_offset] in Ho.
  destruct ((0 <=? (if i <? 0 then i + Z.of_nat n else i))
            && ((if i <? 0 then i + Z.of_nat n else i) <? Z.of_nat n))
    eqn:Hin; [|discriminate].
  apply andb_prop in Hin as [H0 _]. apply Z.leb_le in H0.
  injection Ho as <-. cbn [skipn size_of fold_right] in Hp.
  destruct (Z.ltb_spec i 0); lia.
Qed.

(** The post-fix on a target that was filled with the sentinel [c]. *)
Lemma sentinel_post_fix (op : T -> T -> T) (c : T) (n : nat)
    (indices : ndarray Z) (updates a : ndarray T) :
  eqb (mul one c) c = true ->
  index_update op (ones_times [n] c) (flat_indexer indices) updates = Ok a ->
  (forall (p : nat) (d : T),
      (p < n)%nat ->
      (forall i, In i (data indices) ->
                 i <> Z.of_nat p /\ i <> Z.of_nat p - Z.of_nat n) ->
      nth p (data (where_eq_zero c a)) d = zero) /\
  (forall x, In x (data (where_eq_zero c a)) -> eqb x c = true -> x = zero).
Proof.
  intros Hc Ei. split.
  - intros p d Hp Hun.
    apply index_update_untouched in Ei as (_ & Hl & Hnth).
    assert (Hlen : length (data a) = n).
    { rewrite Hl. unfold ones_times. cbn [data].
      rewrite length_map, repeat_length. simpl. lia. }
    unfold where_eq_zero. cbn [data].
    rewrite (nth_indep _ d ((fun x => if eqb x c then zero else x) d))
      by (rewrite length_map; lia).
    rewrite (map_nth (fun x => if eqb x c then zero else x)).
    rewrite (Hnth p d).
    + unfold ones_times. cbn [data].
      rewrite (nth_indep _ d ((fun x => mul x c) one))
        by (rewrite length_map, repeat_length; simpl; lia).
      rewrite (map_nth (fun x => mul x c)).
      rewrite nth_repeat. now rewrite Hc.
    + intros t Ht Ha. cbn [flat_indexer index_tuples_of] in Ht.
      apply in_map_iff in Ht as (i & <- & Hi).
      cbn [flat_indexer num_axes ones_times shape] in Ha.
      apply flat_index_addresses in Ha. destruct (Hun i Hi). tauto.
  - intros x Hx Hxc. unfold where_eq_zero in Hx. cbn [data] in Hx.
    apply in_map_iff in Hx as (y & <- & _).
    destruct (eqb y c) eqn:Hy; [reflexivity|congruence].
Qed.

(** X10.  In a "min" ("max") scatter into a fresh target of length
    [size], every position that no index addresses, neither directly
    nor as a negative index counted from the end, reads [0.0]; and the
    array that is returned holds the sentinel [1e12] ([-1e12]) nowhere,
    not even where it is the true minimum of what was written: a value
    equal to the sentinel can only be the [0.0] that replaced it. *)
Theorem fresh_min_max_post_fix
    (indices : ndarray Z) (updates : ndarray T) (n : nat)
    (st st' : store (T := T)) (t : native) :
  (eqb (mul one big) big = true ->
   scatter_flat indices updates (Some n) "min" None st = Ok (VNative t, st') ->
   (forall (p : nat) (d : T),
       (p < n)%nat ->
       (forall i, In i (data indices) ->
                  i <> Z.of_nat p /\ i <> Z.of_nat p - Z.of_nat n) ->
       nth p (data (arr t)) d = zero) /\
   (forall x, In x (data (arr t)) -> eqb x big = true -> x = zero)) /\
  (eqb (mul one (opp big)) (opp big) = true ->
   scatter_flat indices updates (Some n) "max" None st = Ok (VNative t, st') ->
   (forall (p : nat) (d : T),
       (p < n)%nat ->
       (forall i, In i (data indices) ->
                  i <> Z.of_nat p /\ i <> Z.of_nat p - Z.of_nat n) ->
       nth p (data (arr t)) d = zero) /\
   (forall x, In x (data (arr t)) -> eqb x (opp big) = true -> x = zero)).
Proof.
  split; intros Hc E; unfold scatter_flat in E;
    cbn [check_size bind String.eqb Ascii.eqb Bool.eqb initial_target
         fresh_flat arr cls exists_ negb] in E.
  - unfold at_min in E.
    destruct (index_update minimum (ones_times [n] big)
                (flat_indexer indices) updates) as [a|e] eqn:Ei;
      [|discriminate].
    cbn [bind] in E. unfold _to_device in E. injection E as <- _.
    cbn [arr]. now apply (sentinel_post_fix minimum big n indices updates).
  - unfold at_max in E.
    destruct (index_update maximum (ones_times [n] (opp big))
                (flat_indexer indices) updates) as [a|e] eqn:Ei;
      [|discriminate].
    cbn [bind] in E. unfold _to_device in E. injection E as <- _.
    cbn [arr]. now apply (sentinel_post_fix maximum (opp big) n indices updates).
Qed.

End SentinelFacts.

(** ** [gather] with batch dimensions *)

Lemma combine_map_seq_shorter {A B} (f : nat -> A) (g g' : nat -> B)
    (start n m : nat) :
  (n <= m)%nat ->
  (forall j, (start <= j < start + n)%nat -> g j = g' j) ->
  combine (map f (seq start n)) (map g (seq start m))
  = combine (map f (seq start n)) (map g' (seq start n)).
Proof.
  revert start m. induction n as [|n IH]; intros start m Hle Hg.
  - reflexivity.
  - destruct m as [|m]; [lia|]. cbn [seq map combine].
    rewrite (Hg start) by lia. f_equal.
    apply IH; [lia|]. intros j Hj. apply Hg. lia.
Qed.

Section GatherBatchedFacts.

Context {T : Type}.
Variable fill : T.


(** X12.  With one batch dimension, index rows beyond the batch extent
    of [params] are ignored without any error: the result is that of
    the call on the first [b] rows of [indices]. *)
Theorem gather_ignores_surplus_rows
    (params : ndarray T) (indices : ndarray Z) (axis : Z)
    (b b' : nat) (ps is_ : list nat) :
  shape params = b :: ps ->
  shape indices = b' :: is_ ->
  (b <= b')%nat ->
  gather fill params indices axis 1
  = gather fill params
      (mk_ndarray (b :: is_) (firstn (b * size_of is_) (data indices)))
      axis 1.
Proof.
  intros Hp Hi Hle. unfold gather. cbn [Z.eqb].
  change (Z.to_nat 1) with 1%nat. cbn [zip_list_after].
  unfold zip_arrays, iterate. cbn [fst snd shape data]. rewrite Hp, Hi.
  cbn [gbind].
  rewrite (combine_map_seq_shorter _ _
             (fun j => mk_ndarray is_
                         (firstn (size_of is_)
                            (skipn (j * size_of is_)
                               (firstn (b * size_of is_) (data indices)))))
             0 b b' Hle).
  - reflexivity.
  - intros j Hj. f_equal. symmetry. apply firstn_skipn_firstn. nia.
Qed.

End GatherBatchedFacts.


(** Three index rows against two rows of [params]. *)
Lemma gather_ignores_surplus_rows_witness :
  let params := mk_ndarray [2; 3]%nat [10; 11; 12; 20; 21; 22] in
  gather 0 params (mk_ndarray [3; 2]%nat [2; 0; 1; 1; 0; 0]) 1 1
  = gather 0 params (mk_ndarray [2; 2]%nat [2; 0; 1; 1]) 1 1.
Proof.
  intros params.
  apply (gather_ignores_surplus_rows 0 params
           (mk_ndarray [3; 2]%nat [2; 0; 1; 1; 0; 0]) 1 2%nat 3%nat
           [3%nat] [2%nat]); try reflexivity. lia.
Defined.

(** ** What [gather] selects *)

Lemma size_of_split (s : list nat) (ax : nat) :
  (ax < length s)%nat ->
  size_of s
  = (size_of (firstn ax s) * (nth ax s 0%nat * size_of (skipn (S ax) s)))%nat.
Proof.
  revert ax. induction s as [|d s IH]; intros ax Hax; simpl in Hax; [lia|].
  destruct ax as [|ax].
  - cbn [firstn nth skipn]. change (size_of []) with 1%nat.
    change (skipn 0 s) with s.
    change (size_of (d :: s)) with (d * size_of s)%nat. lia.
  - cbn [firstn nth skipn]. change (size_of (d :: s)) with (d * size_of s)%nat.
    change (size_of (d :: firstn ax s)) with (d * size_of (firstn ax s))%nat.
    rewrite (IH ax) by lia. lia.
Qed.

Lemma canonical_axis_lt (axis : Z) (rank ax : nat) :
  canonical_axis axis rank = Some ax -> (ax < rank)%nat.
Proof.
  unfold canonical_axis.
  destruct ((- Z.of_nat rank <=? axis) && (axis <? Z.of_nat rank)) eqn:E;
    [|discriminate].
  apply andb_prop in E as [H1 H2]. apply Z.leb_le in H1. apply Z.ltb_lt in H2.
  intros [= <-]. destruct (Z.ltb_spec axis 0); lia.
Qed.

Lemma gsequence_map_inr {A B} (f : A -> B) (l : list A) :
  gsequence (map (fun x => inr (f x)) l) = inr (map f l).
Proof.
  induction l as [|x l IH]; [reflexivity|].
  cbn [map gsequence gbind]. now rewrite IH.
Qed.

Lemma combine_map_seq {A B} (f : nat -> A) (g : nat -> B) (start n : nat) :
  combine (map f (seq start n)) (map g (seq start n))
  = map (fun j => (f j, g j)) (seq start n).
Proof.
  revert start. induction n as [|n IH]; intros start; [reflexivity|].
  cbn [seq map combine]. now rewrite IH.
Qed.

Section TakeFacts.

Context {T : Type}.
Variable fill : T.

Lemma take_block_length (l : list T) (inner d o outer : nat) (i : Z) :
  length l = (outer * (d * inner))%nat ->
  (o < outer)%nat ->
  length (take_block fill l inner d o i) = inner.
Proof.
  intros Hl Ho. unfold take_block.
  destruct ((0 <=? (if i <? 0 then i + Z.of_nat d else i))
            && ((if i <? 0 then i + Z.of_nat d else i) <? Z.of_nat d)) eqn:E.
  - apply andb_prop in E as [H1 H2]. apply Z.leb_le in H1. apply Z.ltb_lt in H2.
    set (j := if i <? 0 then i + Z.of_nat d else i) in *.
    rewrite length_firstn, length_skipn, Hl.
    assert (Z.to_nat j < d)%nat by lia.
    assert ((o * d + Z.to_nat j + 1) * inner <= outer * d * inner)%nat
      by (apply Nat.mul_le_mono_r; nia).
    lia.
  - apply repeat_length.
Qed.

(** A take along an axis of a well-formed array is well formed. *)
Lemma take_along_well_formed (a : ndarray T) (indices : ndarray Z) (ax : nat) :
  well_formed a -> well_formed indices ->
  (ax < length (shape a))%nat ->
  well_formed (take_along fill a indices ax).
Proof.
  intros Ha Hi Hax. unfold well_formed in *. unfold take_along.
  cbn [shape data]. rewrite !size_of_app.
  rewrite (size_of_split (shape a) ax Hax) in Ha.
  rewrite (concat_uniform_length _
             (length (data indices) * size_of (skipn (S ax) (shape a)))).
  - rewrite length_map, length_seq, Hi. lia.
  - apply List.Forall_forall. intros b Hb.
    apply in_map_iff in Hb as (o & <- & Ho). apply in_seq in Ho.
    rewrite (concat_uniform_length _ (size_of (skipn (S ax) (shape a)))).
    + now rewrite length_map.
    + apply List.Forall_forall. intros blk Hblk.
      apply in_map_iff in Hblk as (i & <- & _).
      eapply take_block_length; [exact Ha|lia].
Qed.

End TakeFacts.

Section GatherRows.

Context {T : Type}.
Variable fill : T.

Lemma subarray_nth {A} (a : ndarray A) (d j : nat) (ds : list nat) :
  shape a = d :: ds -> (j < d)%nat ->
  get_item a [Z.of_nat j]
  = Some (mk_ndarray ds
            (firstn (size_of ds) (skipn (j * size_of ds) (data a)))).
Proof.
  intros Hs Hj. cbn [get_item]. unfold subarray. rewrite Hs.
  destruct (Z.leb_spec 0 (Z.of_nat j)) as [_|?]; [|lia].
  destruct (Z.ltb_spec (Z.of_nat j) (Z.of_nat d)) as [_|?]; [|lia].
  cbn [andb]. now rewrite Nat2Z.id.
Qed.

Lemma slice_well_formed {A} (l : list A) (d j : nat) (ds : list nat) :
  length l = size_of (d :: ds) -> (j < d)%nat ->
  well_formed (mk_ndarray ds
                 (firstn (size_of ds) (skipn (j * size_of ds) l))).
Proof.
  intros Hl Hj. unfold well_formed. cbn [shape data].
  rewrite length_firstn, length_skipn, Hl.
  change (size_of (d :: ds)) with (d * size_of ds)%nat. nia.
Qed.

(** X13.  With one batch dimension, equal batch extents and slices
    whose axis [axis - 1] is not empty, [gather] works on every batch
    slice independently: its result has one row per slice, and row [j]
    is the take of [indices[j]] from [params[j]] along [axis - 1]. *)
Theorem gather_batched_rows
    (params : ndarray T) (indices : ndarray Z) (axis : Z)
    (b : nat) (ps is_ : list nat) (ax : nat) :
  well_formed params ->
  well_formed indices ->
  shape params = b :: ps ->
  shape indices = b :: is_ ->
  (1 <= b)%nat ->
  canonical_axis (axis - 1) (length ps) = Some ax ->
  nth ax ps 0%nat <> 0%nat ->
  exists ret : ndarray T,
    gather fill params indices axis 1 = inr ret /\
    shape ret = b :: firstn ax ps ++ is_ ++ skipn (S ax) ps /\
    well_formed ret /\
    forall j : nat,
      (j < b)%nat ->
      exists (pj : ndarray T) (ij : ndarray Z),
        get_item params [Z.of_nat j] = Some pj /\
        get_item indices [Z.of_nat j] = Some ij /\
        take_axis fill pj ij (axis - 1) = inr (take_along fill pj ij ax) /\
        get_item ret [Z.of_nat j] = Some (take_along fill pj ij ax).
Proof.
  intros Hwp Hwi Hp Hi Hb Hax Hne.
  pose proof (canonical_axis_lt _ _ _ Hax) as Haxlt.
  set (fp := fun j => mk_ndarray ps
                        (firstn (size_of ps) (skipn (j * size_of ps) (data params)))).
  set (fi := fun j => mk_ndarray is_
                        (firstn (size_of is_) (skipn (j * size_of is_) (data indices)))).
  set (R := fun j => take_along fill (fp j) (fi j) ax).
  set (rs := firstn ax ps ++ is_ ++ skipn (S ax) ps).
  assert (Htake : forall j, take_axis fill (fp j) (fi j) (axis - 1) = inr (R j)).
  { intros j. unfold take_axis. cbn [fp shape]. rewrite Hax.
    apply Nat.eqb_neq in Hne. now rewrite Hne. }
  assert (HRshape : forall j, shape (R j) = rs) by reflexivity.
  assert (HRwf : forall j, (j < b)%nat -> well_formed (R j)).
  { intros j Hj. apply take_along_well_formed; [| |exact Haxlt].
    - apply (slice_well_formed _ b); [|exact Hj]. rewrite <- Hp. exact Hwp.
    - apply (slice_well_formed _ b); [|exact Hj]. rewrite <- Hi. exact Hwi. }
  assert (Hlens : List.Forall (fun d => length d = size_of rs)
                    (map data (map R (seq 0 b)))).
  { rewrite map_map. apply List.Forall_forall. intros d Hd.
    apply in_map_iff in Hd as (j & <- & Hj). apply in_seq in Hj.
    apply (HRwf j). lia. }
  assert (Hgather : gather fill params indices axis 1
                    = inr (mk_ndarray (b :: rs)
                             (concat (map data (map R (seq 0 b)))))).
  { unfold gather. cbn [Z.eqb]. change (Z.to_nat 1) with 1%nat.
    cbn [zip_list_after]. unfold zip_arrays, iterate. cbn [fst snd].
    rewrite Hp, Hi. cbn [gbind]. fold fp fi.
    rewrite combine_map_seq, map_map. cbn [fst snd].
    rewrite (map_ext _ (fun j => inr (R j)) Htake), gsequence_map_inr.
    cbn [gbind]. unfold stack.
    destruct b as [|b0]; [lia|]. cbn [seq map].
    replace (forallb _ _) with true.
    - cbn [gbind shape data tl firstn app]. rewrite HRshape.
      change (firstn 0 ps) with (@nil nat). cbn [app].
      change (concat (data (R 0%nat) :: map data (map R (seq 1 b0))))
        with (concat (map data (map R (seq 0 (S b0))))).
      rewrite (concat_uniform_length _ (size_of rs) Hlens).
      rewrite !length_map, length_seq.
      change (size_of (S b0 :: rs)) with (S b0 * size_of rs)%nat.
      rewrite Nat.eqb_refl. reflexivity.
    - symmetry. apply forallb_forall. intros r Hr.
      apply bool_decide_eq_true.
      destruct Hr as [<-|Hr]; [reflexivity|].
      apply in_map_iff in Hr as (j & <- & _). reflexivity. }
  eexists. split; [exact Hgather|]. split; [reflexivity|].
  assert (Hwf : well_formed (mk_ndarray (b :: rs)
                               (concat (map data (map R (seq 0 b)))))).
  { unfold well_formed. cbn [shape data].
    rewrite (concat_uniform_length _ (size_of rs) Hlens).
    now rewrite !length_map, length_seq. }
  split; [exact Hwf|].
  intros j Hj. exists (fp j), (fi j).
  split; [now apply (subarray_nth params b)|].
  split; [now apply (subarray_nth indices b)|].
  split; [apply Htake|].
  rewrite (subarray_nth
             (mk_ndarray (b :: rs) (concat (map data (map R (seq 0 b)))))
             b j rs eq_refl Hj).
  cbn [data].
  rewrite (concat_uniform_chunk _ (size_of rs) j Hlens)
    by (rewrite !length_map, length_seq; exact Hj).
  rewrite (nth_indep _ [] (data (R 0%nat)))
    by (rewrite !length_map, length_seq; exact Hj).
  rewrite map_map.
  rewrite (map_nth (fun x => data (R x))), seq_nth by exact Hj.
  reflexivity.
Qed.

End GatherRows.

Section GatherAxis0.

Context {T : Type}.
Variable fill : T.

(** X14.  Without batch dimensions and along a first axis that is not
    empty, [gather] returns an array of shape
    [indices.shape + params.shape[1:]] which at every position [pos]
    of [indices] holds the sub-array [params[indices[pos]]], for every
    index that lies in the axis. *)
Theorem gather_first_axis
    (params : ndarray T) (indices : ndarray Z) (d : nat) (ps : list nat) :
  well_formed params ->
  well_formed indices ->
  shape params = d :: ps ->
  (1 <= d)%nat ->
  exists ret : ndarray T,
    gather fill params indices 0 0 = inr ret /\
    shape ret = shape indices ++ ps /\
    well_formed ret /\
    forall pos : list Z,
      length pos = length (shape indices) ->
      tuple_in_range (shape indices) pos = true ->
      exists i : Z,
        get_item indices pos = Some (mk_ndarray [] [i]) /\
        (0 <= i < Z.of_nat d -> get_item ret pos = get_item params [i]).
Proof.
  intros Hwp Hwi Hp Hd.
  assert (Hax : canonical_axis 0 (length (shape params)) = Some 0%nat).
  { rewrite Hp. reflexivity. }
  assert (Hg : gather fill params indices 0 0
               = inr (take_along fill params indices 0)).
  { unfold gather, take_axis. cbn [Z.eqb]. rewrite Hax, Hp. cbn [nth].
    destruct d; [lia|reflexivity]. }
  assert (Hwf : well_formed (take_along fill params indices 0)).
  { apply take_along_well_formed; try assumption. rewrite Hp. simpl. lia. }
  set (blk := take_block fill (data params) (size_of ps) d 0).
  assert (Hdata : data (take_along fill params indices 0)
                  = concat (map blk (data indices))).
  { unfold take_along. cbn [data]. rewrite Hp.
    cbn [firstn skipn nth size_of fold_right seq map concat].
    now rewrite app_nil_r. }
  assert (Hshape : shape (take_along fill params indices 0)
                   = shape indices ++ ps).
  { unfold take_along. cbn [shape]. now rewrite Hp. }
  assert (Hblk : List.Forall (fun b => length b = size_of ps)
                   (map blk (data indices))).
  { apply List.Forall_forall. intros b Hb.
    apply in_map_iff in Hb as (i & <- & _).
    apply (take_block_length fill _ _ _ _ 1); [|lia].
    unfold well_formed in Hwp. rewrite Hwp, Hp.
    change (size_of (d :: ps)) with (d * size_of ps)%nat. lia. }
  eexists. split; [exact Hg|]. split; [exact Hshape|]. split; [exact Hwf|].
  intros pos Hlen Hin.
  pose proof (flat_offset_bound (shape indices) pos Hin) as Hj.
  rewrite Hlen, skipn_all in Hj. cbn [size_of fold_right] in Hj.
  set (j := flat_offset (shape indices) pos) in *.
  unfold well_formed in Hwi.
  assert (Hjl : (j < length (data indices))%nat) by lia.
  exists (nth j (data indices) 0). split.
  - rewrite (get_item_flat indices pos Hwi Hin).
    rewrite Hlen, skipn_all. fold j. cbn [size_of fold_right].
    rewrite (skipn_cons_nth (data indices) j 0 Hjl). reflexivity.
  - intros Hi.
    rewrite (get_item_flat _ pos Hwf)
      by (rewrite Hshape; now apply tuple_in_range_app).
    rewrite Hshape, Hdata, Hlen, skipn_app, skipn_all, Nat.sub_diag.
    cbn [app]. change (skipn 0 ps) with ps.
    rewrite flat_offset_app by assumption. fold j.
    rewrite (concat_uniform_chunk _ (size_of ps) j Hblk)
      by (now rewrite length_map).
    rewrite (nth_indep _ [] (blk 0)) by (now rewrite length_map).
    rewrite (map_nth blk).
    cbn [get_item]. unfold subarray. rewrite Hp.
    destruct (Z.leb_spec 0 (nth j (data indices) 0)) as [_|?]; [|lia].
    destruct (Z.ltb_spec (nth j (data indices) 0) (Z.of_nat d)) as [_|?]; [|lia].
    cbn [andb]. unfold blk, take_block.
    destruct (Z.ltb_spec (nth j (data indices) 0) 0) as [?|_]; [lia|].
    destruct (Z.leb_spec 0 (nth j (data indices) 0)) as [_|?]; [|lia].
    destruct (Z.ltb_spec (nth j (data indices) 0) (Z.of_nat d)) as [_|?]; [|lia].
    cbn [andb Nat.mul Nat.add]. reflexivity.
Qed.

End GatherAxis0.

(** Rows 1 and 0 of a 2 x 3 array, and one batch dimension. *)
Lemma gather_first_axis_witness :
  let params := mk_ndarray [2; 3]%nat [10; 11; 12; 20; 21; 22] in
  let indices := mk_ndarray [2%nat] [1; 0] in
  exists ret : ndarray Z,
    gather 0 params indices 0 0 = inr ret /\
    shape ret = [2; 3]%nat /\
    get_item ret [0] = get_item params [1].
Proof.
  intros params indices.
  destruct (gather_first_axis 0 params indices 2%nat [3%nat])
    as (ret & Hg & Hs & _ & Hpos); try reflexivity; [lia|].
  exists ret. split; [exact Hg|]. split; [exact Hs|].
  destruct (Hpos [0] eq_refl eq_refl) as (i & Hi & Hret).
  injection Hi as <-. apply Hret. lia.
Defined.

Lemma gather_batched_rows_witness :
  let params := mk_ndarray [2; 3]%nat [10; 11; 12; 20; 21; 22] in
  let indices := mk_ndarray [2; 2]%nat [2; 0; 1; 1] in
  exists ret : ndarray Z,
    gather 0 params indices 1 1 = inr ret /\
    shape ret = [2; 2]%nat /\
    get_item ret [1] = Some (mk_ndarray [2%nat] [21; 21]).
Proof.
  intros params indices.
  destruct (gather_batched_rows 0 params indices 1 2%nat [3%nat] [2%nat] 0%nat)
    as (ret & Hg & Hs & _ & Hrows); try reflexivity; [lia|discriminate|].
  exists ret. split; [exact Hg|]. split; [exact Hs|].
  destruct (Hrows 1%nat ltac:(lia)) as (pj & ij & Hp & Hi & _ & Hr).
  injection Hp as <-. injection Hi as <-. exact Hr.
Defined.

(** ** Concrete runs of the further properties *)

Lemma is_native_array_classes_witness :
  is_native_array (VNative demo_buffer) false = true /\
  ~ In (cls demo_buffer) [JVPTracer; ShapedArray; DynamicJaxprTracer].
Proof.
  destruct (is_native_array_classes (VNative demo_buffer) true eq_refl)
    as (_ & Hincl & Hexcl).
  split; [exact Hincl|]. exact (Hexcl eq_refl).
Defined.

Lemma inplace_update_read_back_witness :
  to_native (<[7%nat := demo_val]> demo_store) (VIvyArray 7)
  = Ok (VNative demo_val).
Proof.
  destruct (inplace_update_read_back 7%nat (VNative demo_val) (VIvyArray 7)
              false demo_store (<[7%nat := demo_val]> demo_store)
              eq_refl eq_refl) as (_ & Hread & _).
  exact Hread.
Defined.

Lemma inplace_functions_frame_witness :
  (<[7%nat := mk_native DeviceArray (mk_ndarray [2%nat] [11.0; 22.0]%float)]>
     (<[8%nat := demo_val]> demo_store) : store) !! 8%nat
  = Some demo_val.
Proof.
  apply (inplace_functions_frame (VIvyArray 7) (VNative demo_val)
           (VIvyArray 7) false (<[8%nat := demo_val]> demo_store)
           (<[7%nat := mk_native DeviceArray
                          (mk_ndarray [2%nat] [11.0; 22.0]%float)]>
              (<[8%nat := demo_val]> demo_store))).
  - right. left. vm_compute. reflexivity.
  - discriminate.
  - reflexivity.
Defined.

Lemma fresh_scatter_shape_witness :
  exists (n : nat) (a : ndarray float),
    Some 4%nat = Some n /\
    VNative (mk_native DeviceArray
               (mk_ndarray [4%nat] [5.0; 0.0; 3.0; 0.0]%float))
    = VNative (mk_native DeviceArray a) /\
    shape a = [n] /\ well_formed a /\ (∅ : store (T := float)) = ∅.
Proof.
  apply (proj1 (fresh_scatter_shape
                  (mk_ndarray [2%nat] [5.0; 3.0]%float) "min" ∅ ∅
                  (VNative (mk_native DeviceArray
                              (mk_ndarray [4%nat] [5.0; 0.0; 3.0; 0.0]%float))))
           (mk_ndarray [2%nat] [0; 2]) (Some 4%nat)).
  vm_compute. reflexivity.
Defined.

Lemma scatter_nd_into_wrapper_witness :
  let buffer := mk_native Buffer (mk_ndarray [2%nat] [1.0; 2.0]%float) in
  let updated := mk_native DeviceArray (mk_ndarray [2%nat] [6.0; 2.0]%float) in
  let st : store := {[ 7%nat := buffer ]} in
  (exists new : native,
      (<[7%nat := updated]> st : store) !! 7%nat = Some new /\
      cls new = DeviceArray /\
      shape (arr new) = [2%nat] /\
      length (data (arr new)) = 2%nat).
Proof.
  intros buffer updated st.
  destruct (scatter_nd_into_wrapper
              (IArray (mk_ndarray [1; 1]%nat [0]))
              (mk_ndarray [1%nat] [5.0]%float) None "sum" 7%nat buffer
              st (<[7%nat := updated]> st) (VIvyArray 7)
              eq_refl) as (_ & Hnew & _).
  - vm_compute. reflexivity.
  - exact Hnew.
Defined.

Lemma scatter_flat_sum_of_zeros_witness :
  VNative (mk_native DeviceArray (mk_ndarray [3%nat] [0.0; 0.0; 0.0]%float))
  = VNative (mk_native DeviceArray (zeros [3%nat])).
Proof.
  apply (scatter_flat_sum_of_zeros (mk_ndarray [3%nat] [0; 0; 7]) [3%nat]
           3%nat ∅ ∅).
  - reflexivity.
  - vm_compute. reflexivity.
Defined.

(** The only update written is the sentinel itself: it is lost. *)
Lemma fresh_min_max_post_fix_witness :
  scatter_flat (mk_ndarray [1%nat] [0]) (mk_ndarray [1%nat] [1e12]%float)
    (Some 2%nat) "min" None ∅
  = Ok (VNative (mk_native DeviceArray (mk_ndarray [2%nat] [0.0; 0.0]%float)),
        ∅) /\
  nth 1 [0.0; 0.0]%float 7.0%float = 0.0%float.
Proof.
  assert (E : scatter_flat (mk_ndarray [1%nat] [0])
                (mk_ndarray [1%nat] [1e12]%float) (Some 2%nat) "min" None ∅
              = Ok (VNative (mk_native DeviceArray
                               (mk_ndarray [2%nat] [0.0; 0.0]%float)), ∅))
    by (vm_compute; reflexivity).
  split; [exact E|].
  assert (Hc : eqb (mul (one : float) big) big = true) by reflexivity.
  destruct (proj1 (fresh_min_max_post_fix (mk_ndarray [1%nat] [0])
                     (mk_ndarray [1%nat] [1e12]%float) 2%nat ∅ ∅
                     (mk_native DeviceArray
                        (mk_ndarray [2%nat] [0.0; 0.0]%float)))
              Hc E) as (Hun & _).
  apply (Hun 1%nat 7.0%float); [lia|].
  intros i [<-|[]]. split; simpl; lia.
Defined.

Lemma scatter_flat_store_unchanged_witness :
  demo_store = demo_store /\
  exists n : native,
    VNative (mk_native DeviceArray (mk_ndarray [2%nat] [6.0; 2.0]%float))
    = VNative n.
Proof.
  apply (scatter_flat_store_unchanged (mk_ndarray [1%nat] [0])
           (mk_ndarray [1%nat] [5.0]%float) None "sum" (Some (VIvyArray 7))
           demo_store demo_store).
  vm_compute. reflexivity.
Defined.

(** ** Operands of one shape *)

Lemma firstn_add_split {A} (a b : nat) (l : list A) :
  firstn (a + b) l = firstn a l ++ firstn b (skipn a l).
Proof.
  revert l. induction a as [|a IH]; intros l; [reflexivity|].
  destruct l as [|x l]; cbn [Nat.add firstn skipn app].
  - now rewrite firstn_nil.
  - now rewrite IH.
Qed.

Lemma concat_chunks_from {A} (sz n start : nat) (l : list A) :
  concat (map (fun j => firstn sz (skipn (j * sz) l)) (seq start n))
  = firstn (n * sz) (skipn (start * sz) l).
Proof.
  revert start. induction n as [|n IH]; intros start; [reflexivity|].
  cbn [seq map concat]. rewrite IH.
  change (S n * sz)%nat with (sz + n * sz)%nat.
  rewrite firstn_add_split, skipn_skipn_add. do 3 f_equal. lia.
Qed.

Lemma concat_chunks {A} (sz n : nat) (l : list A) :
  length l = (n * sz)%nat -> concat (chunks sz n l) = l.
Proof.
  intros Hl. unfold chunks. rewrite concat_chunks_from.
  cbn [Nat.mul skipn]. rewrite <- Hl. apply firstn_all.
Qed.

Lemma sequence_result_map_ok {A} (g : A -> result A) (l : list A) :
  List.Forall (fun x => g x = Ok x) l -> sequence_result (map g l) = Ok l.
Proof.
  induction 1 as [|x l Hx _ IH]; [reflexivity|].
  cbn [map sequence_result]. rewrite Hx. cbn [bind]. now rewrite IH.
Qed.

(** Stretching to the shape the data already has changes nothing. *)
Lemma stretch_id {A} (s : list nat) (l : list A) :
  length l = size_of s -> stretch s s l = Ok l.
Proof.
  revert l. induction s as [|d s IH]; intros l Hl; [reflexivity|].
  cbn [stretch]. rewrite Nat.eqb_refl.
  rewrite (sequence_result_map_ok (stretch s s)).
  - cbn [bind]. f_equal. apply concat_chunks. rewrite Hl. reflexivity.
  - apply List.Forall_forall. intros c Hc. apply IH.
    unfold chunks in Hc. apply in_map_iff in Hc as (j & <- & Hj).
    apply in_seq in Hj. rewrite length_firstn, length_skipn, Hl.
    change (size_of (d :: s)) with (d * size_of s)%nat. nia.
Qed.

Lemma compatible_refl (s : list nat) : compatible s s = true.
Proof.
  induction s as [|d s IH]; [reflexivity|].
  cbn [compatible]. now rewrite Nat.eqb_refl, IH.
Qed.

(** Broadcasting a well-formed array to its own shape gives the array
    back. *)
Lemma broadcast_to_own_shape {A} (a : ndarray A) :
  well_formed a -> broadcast_to a (shape a) = Ok a.
Proof.
  intros Hwf. unfold broadcast_to. rewrite Nat.ltb_irrefl, Nat.sub_diag.
  cbn [repeat app]. rewrite compatible_refl, stretch_id by exact Hwf.
  destruct a. reflexivity.
Qed.

Lemma broadcast_shapes_id (s : list nat) : broadcast_shapes s s = Ok s.
Proof.
  unfold broadcast_shapes.
  assert (H : forall r, broadcast_shapes_rev r r = Ok r).
  { induction r as [|a r IH]; [reflexivity|].
    cbn [broadcast_shapes_rev]. rewrite IH. cbn [bind].
    now rewrite Nat.eqb_refl. }
  rewrite H. cbn [bind]. now rewrite rev_involutive.
Qed.

Lemma elementwise_same_shape {A} (f : A -> A -> A) (a b : ndarray A) :
  well_formed a -> well_formed b -> shape a = shape b ->
  elementwise f a b
  = Ok (mk_ndarray (shape a) (zip_with f (data a) (data b))).
Proof.
  intros Ha Hb Hs. unfold elementwise. rewrite <- Hs, broadcast_shapes_id.
  cbn [bind]. rewrite (broadcast_to_own_shape a Ha). cbn [bind].
  rewrite Hs, (broadcast_to_own_shape b Hb). reflexivity.
Qed.

Lemma zip_with_second {A} (l1 l2 : list A) :
  length l1 = length l2 -> zip_with (fun _ u => u) l1 l2 = l2.
Proof.
  revert l2. induction l1 as [|x l1 IH]; intros [|y l2] Hl;
    try discriminate; [reflexivity|].
  unfold zip_with in *. cbn [combine map fst snd]. f_equal.
  apply IH. now injection Hl.
Qed.

Lemma zip_with_undo {A} (f g : A -> A -> A) (l1 l2 : list A) :
  List.Forall2 (fun a b => g (f a b) b = a) l1 l2 ->
  zip_with g (zip_with f l1 l2) l2 = l1.
Proof.
  induction 1 as [|a b l1 l2 Hab _ IH]; [reflexivity|].
  unfold zip_with in *. cbn [combine map fst snd]. now rewrite Hab, IH.
Qed.

Lemma zip_with_repeat_left {A} (f : A -> A -> A) (z : A) (l : list A) :
  zip_with f (repeat z (length l)) l = map (f z) l.
Proof.
  unfold zip_with. induction l as [|x l IH]; [reflexivity|].
  cbn [length repeat combine map fst snd]. now rewrite IH.
Qed.

(** ** Scatter over the whole target *)

Section ScatterWhole.

Context {T : Type} `{Scalar T}.

(** [target.at[...].op(updates)]: an empty target is returned as it
    is; otherwise the updates are broadcast to the target and combined
    with it position by position. *)
Lemma index_update_whole (op : T -> T -> T) (target updates : ndarray T) :
  well_formed target -> well_formed updates ->
  index_update op target whole_indexer updates
  = if is_empty_shape (shape target) then Ok target
    else
      let* u := broadcast_to updates (shape target) in
      Ok (mk_ndarray (shape target) (zip_with op (data target) (data u))).
Proof.
  intros Ht Hu. unfold index_update.
  cbn [whole_indexer num_axes index_shape index_tuples_of length].
  change (length (shape target) <? 0)%nat with false.
  change (skipn 0 (shape target)) with (shape target).
  change ([] ++ shape target) with (shape target).
  destruct (is_empty_shape (shape target)); [reflexivity|].
  destruct (broadcast_to updates (shape target)) as [u|e] eqn:Eb;
    [|reflexivity].
  cbn [bind]. do 2 f_equal.
  apply broadcast_to_well_formed in Eb as (Hs & Hwf); [|exact Hu].
  unfold well_formed in Hwf, Ht. rewrite Hs in Hwf.
  unfold chunks. cbn [seq map combine fold_left Nat.mul skipn].
  unfold scatter_step. cbn [fst snd tuple_offset].
  unfold write_block. rewrite !skipn_O, firstn_O. cbn [app Nat.add].
  rewrite <- Hwf, firstn_all, Hwf, <- Ht, firstn_all, skipn_all.
  apply app_nil_r.
Qed.

(** X15.  [scatter_nd] with [Ellipsis] or [()] as indices and no output
    buffer writes over the whole fresh target.  For a [shape] with an
    extent 0 nothing is written, and the empty array of zeros is
    returned whatever [updates] is.  Otherwise "replace" gives
    [updates] broadcast to [shape] and "sum" gives [0 + updates]
    broadcast to [shape], and the call fails exactly where that
    broadcast fails. *)
Theorem scatter_nd_whole_target
    (indices : index_arg) (updates : ndarray T) (s : list nat)
    (st : store (T := T)) :
  indices = IEllipsis \/ indices = IEmptyTuple ->
  well_formed updates ->
  scatter_nd indices updates (Some s) "replace" None st
  = (if is_empty_shape s
     then Ok (VNative (mk_native DeviceArray (zeros s)), st)
     else
       let* u := broadcast_to updates s in
       Ok (VNative (mk_native DeviceArray u), st)) /\
  scatter_nd indices updates (Some s) "sum" None st
  = (if is_empty_shape s
     then Ok (VNative (mk_native DeviceArray (zeros s)), st)
     else
       let* u := broadcast_to updates s in
       Ok (VNative (mk_native DeviceArray
                      (mk_ndarray s (map (add zero) (data u)))), st)).
Proof.
  intros Hix Hu.
  assert (Hops : scatter_nd_operands indices updates (Some s) None st
                 = Ok (whole_indexer, updates)).
  { unfold scatter_nd_operands.
    destruct Hix as [-> | ->]; reflexivity. }
  unfold scatter_nd. rewrite Hops.
  cbn [bind target_shape initial_target String.eqb Ascii.eqb Bool.eqb
       arr cls].
  change (scatter_class (mk_native DeviceArray ?a)) with DeviceArray.
  unfold at_set, at_add.
  rewrite !index_update_whole by (exact Hu || apply zeros_well_formed).
  cbn [zeros shape data].
  destruct (is_empty_shape s); [split; reflexivity|].
  destruct (broadcast_to updates s) as [u|e] eqn:Eb; [|split; reflexivity].
  cbn [bind]. unfold _to_device.
  apply broadcast_to_well_formed in Eb as (Hs & Hwf); [|exact Hu].
  unfold well_formed in Hwf. rewrite Hs in Hwf.
  split.
  - rewrite zip_with_second by (now rewrite repeat_length).
    destruct u as [su lu]. cbn [shape data] in *. now subst su.
  - now rewrite <- Hwf, zip_with_repeat_left.
Qed.

End ScatterWhole.

(** ** Increment followed by decrement *)

Section IncrementRoundTrip.

Context {T : Type} `{Scalar T}.

(** X16.  Incrementing a wrapper by [val] and then decrementing it by
    the same [val] gives the data it had before, when [val] has the
    wrapper's shape, is not the wrapper itself, and the element
    arithmetic undoes itself on the values involved
    ([(a + b) - b = a]); the data slots of all other wrappers are
    untouched. *)
Theorem increment_then_decrement
    (r : nat) (d vn : native) (val : value) (st : store (T := T)) :
  st !! r = Some d ->
  to_native st val = Ok (VNative vn) ->
  val <> VIvyArray r ->
  well_formed (arr d) -> well_formed (arr vn) ->
  shape (arr vn) = shape (arr d) ->
  List.Forall2 (fun a b => sub (add a b) b = a) (data (arr d)) (data (arr vn)) ->
  exists (st1 st2 : store) (d2 : native),
    inplace_increment (VIvyArray r) val st = Ok (VIvyArray r, st1) /\
    inplace_decrement (VIvyArray r) val st1 = Ok (VIvyArray r, st2) /\
    st2 !! r = Some d2 /\ arr d2 = arr d /\
    forall r' : nat, r' <> r -> st2 !! r' = st !! r'.
Proof.
  intros Hr Hv Hne Hd Hvn Hs Hundo.
  set (a1 := mk_ndarray (shape (arr d))
               (zip_with add (data (arr d)) (data (arr vn)))).
  set (d1 := mk_native (result_class (cls d) (cls vn)) a1).
  set (d2 := mk_native (result_class (cls d1) (cls vn)) (arr d)).
  assert (Hl : length (data (arr d)) = length (data (arr vn))).
  { unfold well_formed in Hd, Hvn. congruence. }
  assert (Ha1 : well_formed a1).
  { unfold well_formed, a1. cbn [data shape].
    rewrite zip_with_length, <- Hl, Nat.min_id. exact Hd. }
  assert (Hv1 : to_native (<[r := d1]> st) val = Ok (VNative vn)).
  { destruct val as [n|r2|o]; try exact Hv. cbn [to_native] in *.
    unfold store in *. rewrite lookup_insert_ne by congruence. exact Hv. }
  exists (<[r := d1]> st), (<[r := d2]> (<[r := d1]> st)), d2.
  split; [|split; [|split; [|split]]].
  - unfold inplace_increment, args_to_native. rewrite Hv.
    cbn [to_native bind]. rewrite Hr. cbn [bind arith].
    rewrite (elementwise_same_shape add (arr d) (arr vn)) by auto.
    reflexivity.
  - unfold inplace_decrement, args_to_native. rewrite Hv1.
    cbn [to_native bind]. unfold store in *. rewrite lookup_insert_eq.
    cbn [bind arith].
    rewrite (elementwise_same_shape sub (arr d1) (arr vn))
      by (cbn [d1 arr a1 shape]; auto).
    cbn [bind]. do 3 f_equal. unfold d2. f_equal.
    cbn [d1 arr a1 shape data]. rewrite zip_with_undo by exact Hundo.
    now destruct (arr d).
  - unfold store in *. now rewrite lookup_insert_eq.
  - reflexivity.
  - intros r' Hr'. unfold store in *. now rewrite !lookup_insert_ne.
Qed.

End IncrementRoundTrip.

(** On the sample store: slot 7 holds [1.0, 2.0], incremented and then
    decremented by [10.0, 20.0]. *)
Lemma increment_then_decrement_witness :
  exists (st1 st2 : store) (d2 : native),
    inplace_increment (VIvyArray 7) (VNative demo_val) demo_store
    = Ok (VIvyArray 7, st1) /\
    inplace_decrement (VIvyArray 7) (VNative demo_val) st1
    = Ok (VIvyArray 7, st2) /\
    st2 !! 7%nat = Some d2 /\ arr d2 = arr demo_buffer /\
    forall r' : nat, r' <> 7%nat -> st2 !! r' = demo_store !! r'.
Proof.
  apply (increment_then_decrement 7%nat demo_buffer demo_val
           (VNative demo_val) demo_store).
  - reflexivity.
  - reflexivity.
  - discriminate.
  - reflexivity.
  - reflexivity.
  - reflexivity.
  - repeat constructor.
Defined.

(** A scalar update written over a fresh 2-by-2 target. *)
Lemma scatter_nd_whole_target_witness :
  scatter_nd IEllipsis (mk_ndarray [] [5.0%float]) (Some [2; 2]%nat)
    "replace" None demo_store
  = Ok (VNative (mk_native DeviceArray
                   (mk_ndarray [2; 2]%nat [5.0; 5.0; 5.0; 5.0]%float)),
        demo_store).
Proof.
  rewrite (proj1 (scatter_nd_whole_target IEllipsis (mk_ndarray [] [5.0%float])
                    [2; 2]%nat demo_store (or_introl eq_refl) eq_refl)).
  reflexivity.
Defined.
